(** * layerui-phonebook: the normalized contact store, the search service
      and the search stores

    The repository implements the same phonebook five times, once per
    state-management library.  This development embeds

    - the contact store of [zustand-phonebook/src/store/contactStore.ts]
      (the Valtio store runs the same statements on a proxy) and the
      atom actions of [jotai-phonebook/src/store/actions.ts];
    - the search service [searchService.searchContacts];
    - the search stores of the Zustand and Valtio variants together with
      the timer queue their deferred searches sit in.

    A [Record<string, T>] is a [gmap string T]; an array is a [list];
    [string | null] and optional fields are [option]; a JavaScript number
    used as an index or a count is an integer of [Z]; a [Date] is its
    epoch value.  Strings are sequences of 8-bit code units. *)

From Stdlib Require Import ZArith String Ascii List Sorted Permutation Lia.
From stdpp Require Import gmap strings list fin_maps.

Local Open Scope Z_scope.
Local Open Scope list_scope.

(** ** Data model ([types/index.ts]) *)

Record Name := mkName {
  name_first : string;
  name_last : string;
  name_middle : option string
}.

Inductive PhoneType := PhoneMobile | PhoneHome | PhoneWork | PhoneOther.
Inductive EmailType := EmailPersonal | EmailWork | EmailOther.

Record PhoneNumber := mkPhone {
  phone_id : string;
  phone_number : string;
  phone_type : PhoneType;
  phone_isPrimary : bool
}.

Record Email := mkEmail {
  email_id : string;
  email_address : string;
  email_type : EmailType;
  email_isPrimary : bool
}.

Record Address := mkAddress {
  street : string;
  city : string;
  state : string;
  postalCode : string;
  country : string
}.

Record Contact := mkContact {
  contact_id : string;
  contact_name : Name;
  phones : list PhoneNumber;
  emails : list Email;
  address : option Address;
  company : option string;
  notes : option string;
  avatar : option string;
  contact_groups : list string;
  isFavorite : bool;
  createdAt : Z;
  updatedAt : Z
}.

Record ContactGroup := mkGroup {
  group_id : string;
  group_name : string;
  color : string;
  icon : option string;
  group_createdAt : Z;
  group_updatedAt : Z
}.

(** [Partial<Contact>]: every field may be absent.  [None] is an absent
    property, [Some v] a property carrying [v]. *)
Record PartialContact := mkPartial {
  p_id : option string;
  p_name : option Name;
  p_phones : option (list PhoneNumber);
  p_emails : option (list Email);
  p_address : option Address;
  p_company : option string;
  p_notes : option string;
  p_avatar : option string;
  p_groups : option (list string);
  p_isFavorite : option bool;
  p_createdAt : option Z;
  p_updatedAt : option Z
}.

Record PartialGroup := mkPartialGroup {
  pg_id : option string;
  pg_name : option string;
  pg_color : option string;
  pg_icon : option string;
  pg_createdAt : option Z;
  pg_updatedAt : option Z
}.

Definition emptyPartial : PartialContact :=
  mkPartial None None None None None None None None None None None None.

(** One property of a merged object: the update's value when the update
    has the property, the target's otherwise. *)
Definition over {A} (new : option A) (old : A) : A :=
  match new with Some v => v | None => old end.

Definition overOpt {A} (new old : option A) : option A :=
  match new with Some v => Some v | None => old end.

(** [Object.assign(contact, updates)] and [{ ...contact, ...updates }]:
    the properties present in [updates] replace those of [contact]. *)
Definition assign (c : Contact) (u : PartialContact) : Contact :=
  {| contact_id := over (p_id u) (contact_id c);
     contact_name := over (p_name u) (contact_name c);
     phones := over (p_phones u) (phones c);
     emails := over (p_emails u) (emails c);
     address := overOpt (p_address u) (address c);
     company := overOpt (p_company u) (company c);
     notes := overOpt (p_notes u) (notes c);
     avatar := overOpt (p_avatar u) (avatar c);
     contact_groups := over (p_groups u) (contact_groups c);
     isFavorite := over (p_isFavorite u) (isFavorite c);
     createdAt := over (p_createdAt u) (createdAt c);
     updatedAt := over (p_updatedAt u) (updatedAt c) |}.

Definition assignGroup (g : ContactGroup) (u : PartialGroup) : ContactGroup :=
  {| group_id := over (pg_id u) (group_id g);
     group_name := over (pg_name u) (group_name g);
     color := over (pg_color u) (color g);
     icon := overOpt (pg_icon u) (icon g);
     group_createdAt := over (pg_createdAt u) (group_createdAt g);
     group_updatedAt := over (pg_updatedAt u) (group_updatedAt g) |}.

(** A whole contact passed where a [Partial<Contact>] is expected, as
    [saveContact] does with the server's answer. *)
Definition partialOfContact (c : Contact) : PartialContact :=
  {| p_id := Some (contact_id c);
     p_name := Some (contact_name c);
     p_phones := Some (phones c);
     p_emails := Some (emails c);
     p_address := address c;
     p_company := company c;
     p_notes := notes c;
     p_avatar := avatar c;
     p_groups := Some (contact_groups c);
     p_isFavorite := Some (isFavorite c);
     p_createdAt := Some (createdAt c);
     p_updatedAt := Some (updatedAt c) |}.

Definition withFavorite (b : bool) (c : Contact) : Contact :=
  {| contact_id := contact_id c;
     contact_name := contact_name c;
     phones := phones c;
     emails := emails c;
     address := address c;
     company := company c;
     notes := notes c;
     avatar := avatar c;
     contact_groups := contact_groups c;
     isFavorite := b;
     createdAt := createdAt c;
     updatedAt := updatedAt c |}.

Definition withGroups (gs : list string) (c : Contact) : Contact :=
  {| contact_id := contact_id c;
     contact_name := contact_name c;
     phones := phones c;
     emails := emails c;
     address := address c;
     company := company c;
     notes := notes c;
     avatar := avatar c;
     contact_groups := gs;
     isFavorite := isFavorite c;
     createdAt := createdAt c;
     updatedAt := updatedAt c |}.

(** ** Array helpers *)

(** [xs.includes(x)] *)
Definition includes (x : string) (xs : list string) : bool :=
  bool_decide (x ∈ xs).

(** [xs.filter(y => y !== x)] *)
Definition without (x : string) (xs : list string) : list string :=
  filter (λ y, y ≠ x) xs.

(** [xs.push(x)] *)
Definition push (x : string) (xs : list string) : list string := xs ++ [x].

(** ** The contact store ([contactStore.ts], Zustand with immer) *)

Record ContactState := mkState {
  contacts : gmap string Contact;
  groups : gmap string ContactGroup;
  favorites : list string;
  loading : bool;
  error : option string
}.

Definition initialState : ContactState := mkState ∅ ∅ [] false None.

Definition setContactsMap (m : gmap string Contact) (s : ContactState) :=
  mkState m (groups s) (favorites s) (loading s) (error s).
Definition setGroupsMap (m : gmap string ContactGroup) (s : ContactState) :=
  mkState (contacts s) m (favorites s) (loading s) (error s).
Definition setFavorites (f : list string) (s : ContactState) :=
  mkState (contacts s) (groups s) f (loading s) (error s).
Definition setLoading (b : bool) (s : ContactState) :=
  mkState (contacts s) (groups s) (favorites s) b (error s).
Definition setError (e : option string) (s : ContactState) :=
  mkState (contacts s) (groups s) (favorites s) (loading s) e.

(** One turn of the [forEach] of [setContacts]. *)
Definition setContactsStep (s : ContactState) (c : Contact) : ContactState :=
  let s1 := setContactsMap (<[contact_id c := c]> (contacts s)) s in
  if isFavorite c then setFavorites (push (contact_id c) (favorites s1)) s1
  else s1.

Definition setContacts (cs : list Contact) (s : ContactState) : ContactState :=
  fold_left setContactsStep cs (setFavorites [] (setContactsMap ∅ s)).

Definition addContact (c : Contact) (s : ContactState) : ContactState :=
  let s1 := setContactsMap (<[contact_id c := c]> (contacts s)) s in
  if isFavorite c && negb (includes (contact_id c) (favorites s1))
  then setFavorites (push (contact_id c) (favorites s1)) s1
  else s1.

Definition updateContact (id : string) (updates : PartialContact)
    (s : ContactState) : ContactState :=
  match contacts s !! id with
  | Some c =>
      let c' := assign c updates in
      let s1 := setContactsMap (<[id := c']> (contacts s)) s in
      let inFavorites := includes id (favorites s1) in
      if isFavorite c' && negb inFavorites
      then setFavorites (push id (favorites s1)) s1
      else if negb (isFavorite c') && inFavorites
      then setFavorites (without id (favorites s1)) s1
      else s1
  | None => s
  end.

Definition deleteContact (id : string) (s : ContactState) : ContactState :=
  let s1 := setContactsMap (delete id (contacts s)) s in
  setFavorites (without id (favorites s1)) s1.

Definition toggleFavorite (id : string) (s : ContactState) : ContactState :=
  match contacts s !! id with
  | Some c =>
      let c' := withFavorite (negb (isFavorite c)) c in
      let s1 := setContactsMap (<[id := c']> (contacts s)) s in
      if isFavorite c'
      then if negb (includes id (favorites s1))
           then setFavorites (push id (favorites s1)) s1
           else s1
      else setFavorites (without id (favorites s1)) s1
  | None => s
  end.

Definition setGroups (gs : list ContactGroup) (s : ContactState) : ContactState :=
  fold_left (λ st g, setGroupsMap (<[group_id g := g]> (groups st)) st)
            gs (setGroupsMap ∅ s).

Definition addGroup (g : ContactGroup) (s : ContactState) : ContactState :=
  setGroupsMap (<[group_id g := g]> (groups s)) s.

Definition updateGroup (id : string) (updates : PartialGroup)
    (s : ContactState) : ContactState :=
  match groups s !! id with
  | Some g => setGroupsMap (<[id := assignGroup g updates]> (groups s)) s
  | None => s
  end.

(** [Object.values(state.contacts).forEach(contact => contact.groups = ...)]
    rewrites the membership list of every stored contact. *)
Definition deleteGroup (id : string) (s : ContactState) : ContactState :=
  let s1 := setGroupsMap (delete id (groups s)) s in
  setContactsMap
    ((λ c, withGroups (without id (contact_groups c)) c) <$> contacts s1) s1.

Definition clearError (s : ContactState) : ContactState := setError None s.

Definition reset (s : ContactState) : ContactState := initialState.

(** ** The atom actions of the Jotai variant ([store/actions.ts])

    [contactsAtom], [favoritesAtom], [groupsAtom], [loadingAtom] and
    [errorAtom] are the five fields of [ContactState]; an action reads
    them with [get] and replaces them with [set]. *)
Module Jotai.

Definition setContactsAction (cs : list Contact) (s : ContactState) : ContactState :=
  let contactsMap := fold_left (λ acc c, <[contact_id c := c]> acc) cs ∅ in
  let favs := map contact_id (filter (λ c, isFavorite c = true) cs) in
  setFavorites favs (setContactsMap contactsMap s).

Definition addContactAction (c : Contact) (s : ContactState) : ContactState :=
  let s1 := setContactsMap (<[contact_id c := c]> (contacts s)) s in
  if isFavorite c
  then if negb (includes (contact_id c) (favorites s1))
       then setFavorites (favorites s1 ++ [contact_id c]) s1
       else s1
  else s1.


Definition deleteContactAction (id : string) (s : ContactState) : ContactState :=
  let s1 := setContactsMap (delete id (contacts s)) s in
  setFavorites (without id (favorites s1)) s1.

Definition toggleFavoriteAction (id : string) (s : ContactState) : ContactState :=
  match contacts s !! id with
  | None => s
  | Some c =>
      let fav := negb (isFavorite c) in
      let s1 := setContactsMap (<[id := withFavorite fav c]> (contacts s)) s in
      if fav
      then if negb (includes id (favorites s1))
           then setFavorites (favorites s1 ++ [id]) s1
           else s1
      else setFavorites (without id (favorites s1)) s1
  end.

End Jotai.

(** ** The Valtio store ([valtio-phonebook/src/store/contactStore.ts])

    The actions assign to the proxy the very values the Zustand actions
    assign to the immer draft; [deleteGroup] is spelled out, the others
    are the functions above. *)
Module Valtio.

Definition deleteGroup (id : string) (s : ContactState) : ContactState :=
  let s1 := setGroupsMap (delete id (groups s)) s in
  setContactsMap
    (fmap (λ c, withGroups (filter (λ groupId, groupId ≠ id) (contact_groups c)) c)
          (contacts s1))
    s1.

End Valtio.

(** ** Sequences of store calls *)

Inductive StoreOp :=
| SetContacts (cs : list Contact)
| AddContact (c : Contact)
| UpdateContact (id : string) (updates : PartialContact)
| DeleteContact (id : string)
| ToggleFavorite (id : string)
| SetGroups (gs : list ContactGroup)
| AddGroup (g : ContactGroup)
| UpdateGroup (id : string) (updates : PartialGroup)
| DeleteGroup (id : string)
| ClearError
| Reset.

Definition applyOp (s : ContactState) (op : StoreOp) : ContactState :=
  match op with
  | SetContacts cs => setContacts cs s
  | AddContact c => addContact c s
  | UpdateContact id u => updateContact id u s
  | DeleteContact id => deleteContact id s
  | ToggleFavorite id => toggleFavorite id s
  | SetGroups gs => setGroups gs s
  | AddGroup g => addGroup g s
  | UpdateGroup id u => updateGroup id u s
  | DeleteGroup id => deleteGroup id s
  | ClearError => clearError s
  | Reset => reset s
  end.

Definition runOps (ops : list StoreOp) (s : ContactState) : ContactState :=
  fold_left applyOp ops s.

(** The calls the favorites invariant is stated over: upsert, update,
    toggle and remove. *)
Definition isContactOp (op : StoreOp) : Prop :=
  match op with
  | AddContact _ | UpdateContact _ _ | DeleteContact _ | ToggleFavorite _ => True
  | _ => False
  end.

(** An update that may change the [id] property of the stored contact. *)
Definition renames (op : StoreOp) : Prop :=
  match op with
  | UpdateContact id u =>
      match p_id u with Some i => i ≠ id | None => False end
  | _ => False
  end.

(** The favorites list agrees with the flags: no duplicates, and an id is
    listed exactly when the map holds a favorite contact under it. *)
Definition favoritesConsistent (s : ContactState) : Prop :=
  NoDup (favorites s) ∧
  ∀ i, i ∈ favorites s ↔ ∃ c, contacts s !! i = Some c ∧ isFavorite c = true.

(** A call that cannot leave a stale favorite behind: any update, toggle
    or remove, and an upsert of a favorite or over an unlisted id. *)
Definition reconciles (s : ContactState) (op : StoreOp) : Prop :=
  match op with
  | AddContact c => isFavorite c = true ∨ contact_id c ∉ favorites s
  | UpdateContact _ _ | DeleteContact _ | ToggleFavorite _ => True
  | _ => False
  end.

Fixpoint allReconcile (ops : list StoreOp) (s : ContactState) : Prop :=
  match ops with
  | [] => True
  | op :: ops' => reconciles s op ∧ allReconcile ops' (applyOp s op)
  end.

(** The same agreement at a single id. *)
Definition agreesAt (id : string) (s : ContactState) : Prop :=
  id ∈ favorites s ↔ ∃ c, contacts s !! id = Some c ∧ isFavorite c = true.


(** Every stored contact carries the key it is stored under. *)
Definition idsMatchKeys (s : ContactState) : Prop :=
  ∀ k c, contacts s !! k = Some c → contact_id c = k.

(** The map a list of contacts denotes when later entries overwrite
    earlier ones with the same id. *)
Definition lastWins (cs : list Contact) : gmap string Contact :=
  fold_left (λ acc c, <[contact_id c := c]> acc) cs ∅.

(** ** The async actions of the store (the gateway to the remote API)

    A promise settles either way; what a [catch] receives is an [Error]
    carrying a message or any other thrown value. *)

Inductive Thrown :=
| ThrownError (message : string)
| ThrownValue (description : string).

Inductive Outcome (A : Type) :=
| Fulfilled (a : A)
| Rejected (e : Thrown).
Arguments Fulfilled {A} a.
Arguments Rejected {A} e.

(** [error instanceof Error ? error.message : fallback] *)
Definition errorText (fallback : string) (e : Thrown) : string :=
  match e with
  | ThrownError m => m
  | ThrownValue _ => fallback
  end.

(** The remote API ([services/api]), an external collaborator: each call
    is represented by the way its promise settles. *)
Record Api := mkApi {
  getContacts : Outcome (list Contact);
  createContactApi : Contact → Outcome Contact;
  updateContactApi : string → Contact → Outcome Contact;
  deleteContactApi : string → Outcome unit;
  getGroups : Outcome (list ContactGroup)
}.

Definition withIdentity (uuid : string) (now : Z) (c : Contact) : Contact :=
  {| contact_id := uuid;
     contact_name := contact_name c;
     phones := phones c;
     emails := emails c;
     address := address c;
     company := company c;
     notes := notes c;
     avatar := avatar c;
     contact_groups := contact_groups c;
     isFavorite := isFavorite c;
     createdAt := now;
     updatedAt := now |}.

Definition withUpdatedAt (now : Z) (c : Contact) : Contact :=
  {| contact_id := contact_id c;
     contact_name := contact_name c;
     phones := phones c;
     emails := emails c;
     address := address c;
     company := company c;
     notes := notes c;
     avatar := avatar c;
     contact_groups := contact_groups c;
     isFavorite := isFavorite c;
     createdAt := createdAt c;
     updatedAt := now |}.

Section Gateway.
Variable api : Api.

(** The statements of [fetchContacts] before its [await]. *)
Definition fetchContactsBegin (s : ContactState) : ContactState :=
  setError None (setLoading true s).

(** The rest of [fetchContacts], run on the store as it is when the
    promise settles: [try] body or [catch], then [finally]. *)
Definition fetchContactsSettle (r : Outcome (list Contact))
    (s : ContactState) : ContactState * Outcome unit :=
  let s1 := match r with
            | Fulfilled data => setContacts data s
            | Rejected e =>
                setError (Some (errorText "Failed to fetch contacts" e)) s
            end in
  (setLoading false s1, Fulfilled tt).

Definition fetchContacts (s : ContactState) : ContactState * Outcome unit :=
  fetchContactsSettle (getContacts api) (fetchContactsBegin s).

Definition createContactSettle (r : Outcome Contact)
    (s : ContactState) : ContactState * Outcome unit :=
  match r with
  | Fulfilled data => (addContact data s, Fulfilled tt)
  | Rejected e =>
      (setError (Some (errorText "Failed to create contact" e)) s, Rejected e)
  end.

(** [uuid] is the value of [crypto.randomUUID()], [now] of [new Date()]. *)
Definition createContact (contactData : Contact) (uuid : string) (now : Z)
    (s : ContactState) : ContactState * Outcome unit :=
  createContactSettle
    (createContactApi api (withIdentity uuid now contactData)) s.

Definition saveContactSettle (id : string) (r : Outcome Contact)
    (s : ContactState) : ContactState * Outcome unit :=
  match r with
  | Fulfilled data => (updateContact id (partialOfContact data) s, Fulfilled tt)
  | Rejected e =>
      (setError (Some (errorText "Failed to save contact" e)) s, Rejected e)
  end.

Definition saveContact (c : Contact) (now : Z)
    (s : ContactState) : ContactState * Outcome unit :=
  saveContactSettle (contact_id c)
    (updateContactApi api (contact_id c) (withUpdatedAt now c)) s.

Definition removeContactSettle (id : string) (r : Outcome unit)
    (s : ContactState) : ContactState * Outcome unit :=
  match r with
  | Fulfilled _ => (deleteContact id s, Fulfilled tt)
  | Rejected e =>
      (setError (Some (errorText "Failed to delete contact" e)) s, Rejected e)
  end.

Definition removeContact (id : string)
    (s : ContactState) : ContactState * Outcome unit :=
  removeContactSettle id (deleteContactApi api id) s.

Definition fetchGroupsSettle (r : Outcome (list ContactGroup))
    (s : ContactState) : ContactState * Outcome unit :=
  match r with
  | Fulfilled data => (setGroups data s, Fulfilled tt)
  | Rejected e =>
      (setError (Some (errorText "Failed to fetch groups" e)) s, Fulfilled tt)
  end.

Definition fetchGroups (s : ContactState) : ContactState * Outcome unit :=
  fetchGroupsSettle (getGroups api) s.

End Gateway.

(** ** The search service ([services/search.ts]) *)

(** [request.filters] of [SearchContactsRequest]: both fields optional. *)
Record RequestFilters := mkRequestFilters {
  rf_groups : option (list string);
  rf_favorites : option bool
}.

Record SearchContactsRequest := mkRequest {
  req_query : string;
  req_filters : option RequestFilters;
  req_limit : option Z;
  req_offset : option Z
}.

(** What the service takes from the JavaScript runtime and from Fuse.js:
    [String.prototype.localeCompare], whose order is the collation of the
    host's locale, and the ranked items of [new Fuse(items, fuseOptions)
    .search(query)]. *)
Class Runtime := mkRuntime {
  localeCompare : string → string → Z;
  fuseSearch : list Contact → string → list Contact
}.

(** White space of [String.prototype.trim] among 8-bit code units: TAB,
    LF, VT, FF, CR, SPACE and NBSP. *)
Definition isWhiteSpace (a : ascii) : bool :=
  let n := N_of_ascii a in
  ((9 <=? n) && (n <=? 13) || (n =? 32) || (n =? 160))%N.

Fixpoint trimStart (s : string) : string :=
  match s with
  | EmptyString => EmptyString
  | String a s' => if isWhiteSpace a then trimStart s' else s
  end.

Fixpoint trimEnd (s : string) : string :=
  match s with
  | EmptyString => EmptyString
  | String a s' =>
      match trimEnd s' with
      | EmptyString => if isWhiteSpace a then EmptyString else String a EmptyString
      | t => String a t
      end
  end.

Definition trim (s : string) : string := trimEnd (trimStart s).

(** [!s] on a string: true exactly for the empty string. *)
Definition notString (s : string) : bool :=
  match s with EmptyString => true | String _ _ => false end.

(** [x || d] on an optional number: [undefined] and [0] are falsy. *)
Definition orElse (x : option Z) (d : Z) : Z :=
  match x with
  | Some v => if v =? 0 then d else v
  | None => d
  end.

(** The index arithmetic of [Array.prototype.slice]: a negative index
    counts from the end, every index is clamped to the array. *)
Definition relativeIndex (len k : Z) : Z :=
  if k <? 0 then Z.max (len + k) 0 else Z.min k len.

Definition slice {A} (start stop : Z) (xs : list A) : list A :=
  let len := Z.of_nat (length xs) in
  let k := relativeIndex len start in
  let final := relativeIndex len stop in
  take (Z.to_nat (final - k)) (drop (Z.to_nat k) xs).

(** [Array.prototype.sort(compare)] is stable; with a consistent
    comparator its result is the stable insertion of each element into
    the sorted remainder. *)
Fixpoint insertSorted {A} (cmp : A → A → Z) (x : A) (xs : list A) : list A :=
  match xs with
  | [] => [x]
  | y :: ys => if cmp x y <=? 0 then x :: y :: ys
               else y :: insertSorted cmp x ys
  end.

Definition sort {A} (cmp : A → A → Z) (xs : list A) : list A :=
  foldr (insertSorted cmp) [] xs.

Definition surname (c : Contact) : string := name_last (contact_name c).

(** [request.filters?.groups?.length]: the group filter, when it is
    present and not empty. *)
Definition activeGroups (req : SearchContactsRequest) : option (list string) :=
  match req_filters req with
  | Some f =>
      match rf_groups f with
      | Some [] => None
      | Some gs => Some gs
      | None => None
      end
  | None => None
  end.

(** [request.filters?.favorites] *)
Definition favoritesOnly (req : SearchContactsRequest) : bool :=
  match req_filters req with
  | Some f => match rf_favorites f with Some b => b | None => false end
  | None => false
  end.

Definition inSomeGroup (gs : list string) (c : Contact) : bool :=
  existsb (λ g, includes g gs) (contact_groups c).

Definition applyFilters (cs : list Contact) (req : SearchContactsRequest)
    : list Contact :=
  let byGroup := match activeGroups req with
                 | Some gs => filter (λ c, inSomeGroup gs c = true) cs
                 | None => cs
                 end in
  if favoritesOnly req then filter (λ c, isFavorite c = true) byGroup
  else byGroup.

Section SearchService.
Context {rt : Runtime}.

Definition bySurname (a b : Contact) : Z :=
  localeCompare (surname a) (surname b).

Definition searchContacts (cs : list Contact) (req : SearchContactsRequest)
    : list Contact :=
  let filteredContacts := applyFilters cs req in
  let offset := orElse (req_offset req) 0 in
  let limit := orElse (req_limit req) 50 in
  if notString (trim (req_query req))
  then slice offset (offset + limit) (sort bySurname filteredContacts)
  else slice offset (offset + limit)
             (fuseSearch filteredContacts (req_query req)).

End SearchService.

(** ** The search stores ([store/searchStore.ts]) *)

Record SearchFilters := mkFilters {
  sf_groups : list string;
  sf_favorites : bool;
  sf_phoneType : option string;
  sf_emailType : option string
}.

Record SearchState := mkSearch {
  query : string;
  filters : SearchFilters;
  results : list Contact;
  isSearching : bool
}.

(** What the callback handed to [setTimeout] closes over. *)
Record SearchTask := mkTask {
  task_contacts : list Contact;
  task_query : string;
  task_filters : SearchFilters
}.

(** The store and the timers not yet fired.  Every search is deferred by
    the same 100 ms, so the timers fire in the order they were set: the
    list is a queue, oldest first. *)
Record SearchWorld := mkWorld {
  search : SearchState;
  timers : list SearchTask
}.

Definition initialSearch : SearchState :=
  mkSearch EmptyString (mkFilters [] false None None) [] false.

Definition requestOf (q : string) (f : SearchFilters) : SearchContactsRequest :=
  mkRequest q (Some (mkRequestFilters (Some (sf_groups f)) (Some (sf_favorites f))))
            None None.

Section SearchStores.
Context {rt : Runtime}.

(** The callback of [setTimeout]: compute, then store the results. *)
Definition complete (t : SearchTask) (st : SearchState) : SearchState :=
  mkSearch (query st) (filters st)
           (searchContacts (task_contacts t)
                           (requestOf (task_query t) (task_filters t)))
           false.

(** The oldest timer fires. *)
Definition timerFires (w : SearchWorld) : SearchWorld :=
  match timers w with
  | [] => w
  | t :: ts => mkWorld (complete t (search w)) ts
  end.

End SearchStores.

(** Zustand: [setQuery] only stores the text; a component calls
    [searchContacts] with the contact list, which always defers. *)
Module ZustandSearch.

Definition setQuery (q : string) (w : SearchWorld) : SearchWorld :=
  mkWorld (mkSearch q (filters (search w)) (results (search w))
                    (isSearching (search w)))
          (timers w).

Definition searchContacts (cs : list Contact) (w : SearchWorld) : SearchWorld :=
  let st := search w in
  mkWorld (mkSearch (query st) (filters st) (results st) true)
          (timers w ++ [mkTask cs (query st) (filters st)]).

Inductive Event :=
| SetQuery (q : string)
| SearchContacts (cs : list Contact)
| TimerFires.

Definition step `{Runtime} (w : SearchWorld) (e : Event) : SearchWorld :=
  match e with
  | SetQuery q => setQuery q w
  | SearchContacts cs => searchContacts cs w
  | TimerFires => timerFires w
  end.

Definition run `{Runtime} (es : list Event) (w : SearchWorld) : SearchWorld :=
  fold_left step es w.

End ZustandSearch.

(** Valtio: [setQuery] stores the text and calls [performSearch], which
    clears the results at once for a blank query and defers otherwise.
    [cs] is [Object.values(contactState.contacts)] at the time of the
    call.  The events below never touch [searchState.filters], so the
    object a pending callback refers to still holds what it held when the
    timer was set. *)
Module ValtioSearch.

Definition performSearch (cs : list Contact) (w : SearchWorld) : SearchWorld :=
  let st := search w in
  if notString (trim (query st))
  then mkWorld (mkSearch (query st) (filters st) [] false) (timers w)
  else mkWorld (mkSearch (query st) (filters st) (results st) true)
               (timers w ++ [mkTask cs (query st) (filters st)]).

Definition setQuery (q : string) (cs : list Contact) (w : SearchWorld)
    : SearchWorld :=
  performSearch cs
    (mkWorld (mkSearch q (filters (search w)) (results (search w))
                       (isSearching (search w)))
             (timers w)).

Inductive Event :=
| SetQuery (q : string) (cs : list Contact)
| TimerFires.

Definition step `{Runtime} (w : SearchWorld) (e : Event) : SearchWorld :=
  match e with
  | SetQuery q cs => setQuery q cs w
  | TimerFires => timerFires w
  end.

Definition run `{Runtime} (es : list Event) (w : SearchWorld) : SearchWorld :=
  fold_left step es w.

(** The results [performSearch] computes for a query: none for a blank
    one, the service's answer otherwise. *)
Definition resultsFor `{Runtime} (q : string) (cs : list Contact)
    (f : SearchFilters) : list Contact :=
  if notString (trim q) then [] else searchContacts cs (requestOf q f).

End ValtioSearch.

(** ** Sample data *)

Definition sampleContact (id firstName lastName : string) (fav : bool)
    (gs : list string) : Contact :=
  {| contact_id := id;
     contact_name := mkName firstName lastName None;
     phones := [mkPhone "1" "+1234567890" PhoneMobile true];
     emails := [mkEmail "1" (firstName ++ "@example.com")%string
                        EmailPersonal true];
     address := None;
     company := None;
     notes := None;
     avatar := None;
     contact_groups := gs;
     isFavorite := fav;
     createdAt := 1672531200000;
     updatedAt := 1672531200000 |}.

(** A collation that is the CLDR root order on strings of ASCII letters:
    letters compare by alphabet position whatever their case, and only
    when that leaves two strings equal does case decide, lower case
    first.  So ["b"] sorts before ["C"], as [localeCompare] has it in
    every browser and in Node.  Code units that are not letters are
    ranked by their value. *)
Definition isUpper (n : N) : bool := ((65 <=? n) && (n <=? 90))%N.

Definition alphabetRank (a : ascii) : N :=
  let n := N_of_ascii a in if isUpper n then (n + 32)%N else n.

Definition caseRank (a : ascii) : N :=
  if isUpper (N_of_ascii a) then 1%N else 0%N.

Fixpoint compareBy (key : ascii → N) (s t : string) : comparison :=
  match s, t with
  | EmptyString, EmptyString => Eq
  | EmptyString, String _ _ => Lt
  | String _ _, EmptyString => Gt
  | String a s', String b t' =>
      match N.compare (key a) (key b) with
      | Eq => compareBy key s' t'
      | c => c
      end
  end.

Definition signOf (c : comparison) : Z :=
  match c with Lt => -1 | Eq => 0 | Gt => 1 end.

Definition lettersCollation (s t : string) : Z :=
  match compareBy alphabetRank s t with
  | Eq => signOf (compareBy caseRank s t)
  | c => signOf c
  end.

(** A stand-in for Fuse.js that returns the candidates whose first or
    last name is the query itself, the matches every fuzzy ranking
    keeps. *)
Definition exactNameSearch (cs : list Contact) (q : string) : list Contact :=
  filter (λ c, name_first (contact_name c) = q ∨ surname c = q) cs.

Definition lettersRuntime : Runtime := mkRuntime lettersCollation exactNameSearch.

(** Ascending order of code units, the order of [<] on strings. *)
Definition ordinalLe (s t : string) : Prop := String.leb s t = true.

(** Two contacts that differ at most in their group memberships. *)
Definition sameExceptGroups (c c' : Contact) : Prop :=
  contact_id c' = contact_id c ∧ contact_name c' = contact_name c ∧
  phones c' = phones c ∧ emails c' = emails c ∧ address c' = address c ∧
  company c' = company c ∧ notes c' = notes c ∧ avatar c' = avatar c ∧
  isFavorite c' = isFavorite c ∧ createdAt c' = createdAt c ∧
  updatedAt c' = updatedAt c.

Definition johnDoe : Contact := sampleContact "1" "John" "Doe" false [].
Definition johnDoeFavorite : Contact := sampleContact "1" "John" "Doe" true [].
Definition janeSmith : Contact :=
  sampleContact "2" "Jane" "Smith" true ["friends"].
Definition annBell : Contact := sampleContact "3" "Ann" "bell" false [].
Definition bobCole : Contact := sampleContact "4" "Bob" "Cole" false [].

(** A remote API every call of which is rejected with the same error. *)
Definition failingApi (e : Thrown) : Api :=
  mkApi (Rejected e) (λ _, Rejected e) (λ _ _, Rejected e) (λ _, Rejected e)
        (Rejected e).

(** The request of an empty query with no filters. *)
Definition blankRequest (limit offset : option Z) : SearchContactsRequest :=
  mkRequest EmptyString None limit offset.

(** What a contact has to satisfy to pass the filters of a request. *)
Definition passes (req : SearchContactsRequest) (c : Contact) : Prop :=
  (∀ gs, activeGroups req = Some gs →
         ∃ g, g ∈ contact_groups c ∧ g ∈ gs) ∧
  (favoritesOnly req = true → isFavorite c = true).


(** [{ id: i }] and [{ isFavorite: true }] as partial updates. *)
Definition renameTo (i : string) : PartialContact :=
  mkPartial (Some i) None None None None None None None None None None None.
Definition markFavorite : PartialContact :=
  mkPartial None None None None None None None None None (Some true) None None.

(** ** The other searches of the service ([services/search.ts]) *)

Definition isDigit (a : ascii) : bool :=
  let n := N_of_ascii a in ((48 <=? n) && (n <=? 57))%N.

(** [s.replace(/\D/g, '')]: the decimal digits of [s], in order. *)
Fixpoint digitsOf (s : string) : string :=
  match s with
  | EmptyString => EmptyString
  | String a s' => if isDigit a then String a (digitsOf s') else digitsOf s'
  end.

(** [s.startsWith(sub)] *)
Fixpoint startsWith (s sub : string) : bool :=
  match sub, s with
  | EmptyString, _ => true
  | String _ _, EmptyString => false
  | String b sub', String a s' => Ascii.eqb a b && startsWith s' sub'
  end.

(** [s.includes(sub)] on strings: [sub] occurs in [s] at some position. *)
Fixpoint stringIncludes (s sub : string) : bool :=
  startsWith s sub ||
  match s with
  | EmptyString => false
  | String _ s' => stringIncludes s' sub
  end.

Definition phoneMatches (normalizedQuery : string) (p : PhoneNumber) : bool :=
  stringIncludes (digitsOf (phone_number p)) normalizedQuery.

Definition phoneticSearch (cs : list Contact) (q : string) : list Contact :=
  let normalizedQuery := digitsOf q in
  filter (λ c, existsb (phoneMatches normalizedQuery) (phones c) = true) cs.

Definition groupSearch (cs : list Contact) (groupId : string) : list Contact :=
  filter (λ c, includes groupId (contact_groups c) = true) cs.

(** ** The filter actions of the Zustand search store
    ([searchStore.ts], lines 43-78; the reducers of the Redux search
    slice assign the same values) *)

Record PartialFilters := mkPartialFilters {
  pf_groups : option (list string);
  pf_favorites : option bool;
  pf_phoneType : option string;
  pf_emailType : option string
}.

Definition assignFilters (f : SearchFilters) (u : PartialFilters) : SearchFilters :=
  {| sf_groups := over (pf_groups u) (sf_groups f);
     sf_favorites := over (pf_favorites u) (sf_favorites f);
     sf_phoneType := overOpt (pf_phoneType u) (sf_phoneType f);
     sf_emailType := overOpt (pf_emailType u) (sf_emailType f) |}.

Definition withFilterGroups (gs : list string) (st : SearchState) : SearchState :=
  mkSearch (query st)
           (mkFilters gs (sf_favorites (filters st)) (sf_phoneType (filters st))
                      (sf_emailType (filters st)))
           (results st) (isSearching st).

Definition setFilters (newFilters : PartialFilters) (st : SearchState) : SearchState :=
  mkSearch (query st) (assignFilters (filters st) newFilters) (results st)
           (isSearching st).

Definition addGroupFilter (groupId : string) (st : SearchState) : SearchState :=
  if negb (includes groupId (sf_groups (filters st)))
  then withFilterGroups (push groupId (sf_groups (filters st))) st
  else st.

Definition removeGroupFilter (groupId : string) (st : SearchState) : SearchState :=
  withFilterGroups (without groupId (sf_groups (filters st))) st.

Definition toggleFavoritesFilter (st : SearchState) : SearchState :=
  mkSearch (query st)
           (mkFilters (sf_groups (filters st)) (negb (sf_favorites (filters st)))
                      (sf_phoneType (filters st)) (sf_emailType (filters st)))
           (results st) (isSearching st).

Definition clearSearch (st : SearchState) : SearchState :=
  mkSearch EmptyString (mkFilters [] false None None) [] (isSearching st).

(** [clearSearch] in the world of pending timers: it sets no timer and
    clears none. *)
Definition clearSearchWorld (w : SearchWorld) : SearchWorld :=
  mkWorld (clearSearch (search w)) (timers w).

(** ** Derived state ([derive] of the Valtio stores, the derived atoms of
    Jotai, the [favoriteContacts$] stream of the RxJS store) *)

(** [Object.values(m)].  The engine lists the values in property order;
    what is proved below depends only on which values are listed. *)
Definition objectValues {A} (m : gmap string A) : list A :=
  (map_to_list m).*2.

(** [favorites.map(id => contacts[id]).filter(Boolean)] *)
Definition favoriteContacts (s : ContactState) : list Contact :=
  omap (λ id, contacts s !! id) (favorites s).

Definition contactList (s : ContactState) : list Contact :=
  objectValues (contacts s).

(** [Object.keys(contacts).length] *)
Definition contactCount (s : ContactState) : nat := size (contacts s).

Definition getContactById (id : string) (s : ContactState) : option Contact :=
  contacts s !! id.

Definition getContactsByGroup (groupId : string) (s : ContactState) : list Contact :=
  filter (λ c, includes groupId (contact_groups c) = true) (contactList s).

(** [search.query.trim() ? search.results : contacts] *)
Definition displayContacts (st : SearchState) (all : list Contact) : list Contact :=
  if notString (trim (query st)) then all else results st.

(** ** The RxJS contact store ([class ContactStore]) *)
Module Rx.

Definition setContacts (cs : list Contact) (s : ContactState) : ContactState :=
  let contactsMap := fold_left (λ acc c, <[contact_id c := c]> acc) cs ∅ in
  let favs := map contact_id (filter (λ c, isFavorite c = true) cs) in
  mkState contactsMap (groups s) favs (loading s) (error s).

Definition addContact (c : Contact) (s : ContactState) : ContactState :=
  mkState (<[contact_id c := c]> (contacts s)) (groups s)
          (if isFavorite c && negb (includes (contact_id c) (favorites s))
           then favorites s ++ [contact_id c]
           else favorites s)
          (loading s) (error s).

Definition updateContact (id : string) (updates : PartialContact)
    (s : ContactState) : ContactState :=
  match contacts s !! id with
  | None => s
  | Some c =>
      let updatedContact := assign c updates in
      let favs := if isFavorite updatedContact
                  then if includes id (favorites s) then favorites s
                       else favorites s ++ [id]
                  else without id (favorites s) in
      mkState (<[id := updatedContact]> (contacts s)) (groups s) favs
              (loading s) (error s)
  end.

Definition deleteContact (id : string) (s : ContactState) : ContactState :=
  mkState (delete id (contacts s)) (groups s) (without id (favorites s))
          (loading s) (error s).

Definition toggleFavorite (id : string) (s : ContactState) : ContactState :=
  match contacts s !! id with
  | None => s
  | Some c =>
      let fav := negb (isFavorite c) in
      let favs := if fav
                  then if includes id (favorites s) then favorites s
                       else favorites s ++ [id]
                  else without id (favorites s) in
      mkState (<[id := withFavorite fav c]> (contacts s)) (groups s) favs
              (loading s) (error s)
  end.

Definition setGroups (gs : list ContactGroup) (s : ContactState) : ContactState :=
  let groupsMap := fold_left (λ acc g, <[group_id g := g]> acc) gs ∅ in
  mkState (contacts s) groupsMap (favorites s) (loading s) (error s).

End Rx.

(** ** The Redux contacts slice ([store/slices/contactsSlice.ts]) and its
    selectors ([store/selectors/contactSelectors.ts])

    The state has two more fields than the other stores: the call
    history, whose entry type is declared elsewhere and is a parameter
    here, and the time of the last sync. *)
Module Redux.
Section WithCallHistory.
Context {CallHistoryEntry : Type}.

Record ContactsState := mkContactsState {
  r_contacts : gmap string Contact;
  r_groups : gmap string ContactGroup;
  r_callHistory : gmap string CallHistoryEntry;
  r_favorites : list string;
  r_loading : bool;
  r_error : option string;
  r_lastSync : option Z
}.

Definition initialContactsState : ContactsState :=
  mkContactsState ∅ ∅ ∅ [] false None None.

(** The five fields the slice shares with the other stores. *)
Definition core (s : ContactsState) : ContactState :=
  mkState (r_contacts s) (r_groups s) (r_favorites s) (r_loading s) (r_error s).

Definition withContacts (m : gmap string Contact) (s : ContactsState) :=
  mkContactsState m (r_groups s) (r_callHistory s) (r_favorites s)
                  (r_loading s) (r_error s) (r_lastSync s).
Definition withFavorites (f : list string) (s : ContactsState) :=
  mkContactsState (r_contacts s) (r_groups s) (r_callHistory s) f
                  (r_loading s) (r_error s) (r_lastSync s).

Definition toggleFavorite (contactId : string) (s : ContactsState) : ContactsState :=
  match r_contacts s !! contactId with
  | Some c =>
      let c' := withFavorite (negb (isFavorite c)) c in
      let s1 := withContacts (<[contactId := c']> (r_contacts s)) s in
      if isFavorite c'
      then if negb (includes contactId (r_favorites s1))
           then withFavorites (push contactId (r_favorites s1)) s1
           else s1
      else withFavorites (without contactId (r_favorites s1)) s1
  | None => s
  end.

Definition addToGroup (contactId groupId : string) (s : ContactsState)
    : ContactsState :=
  match r_contacts s !! contactId with
  | Some c =>
      if negb (includes groupId (contact_groups c))
      then withContacts
             (<[contactId := withGroups (push groupId (contact_groups c)) c]>
                (r_contacts s)) s
      else s
  | None => s
  end.

Definition removeFromGroup (contactId groupId : string) (s : ContactsState)
    : ContactsState :=
  match r_contacts s !! contactId with
  | Some c =>
      withContacts
        (<[contactId := withGroups (without groupId (contact_groups c)) c]>
           (r_contacts s)) s
  | None => s
  end.

(** One turn of the [forEach] of [bulkDelete]. *)
Definition bulkDeleteStep (s : ContactsState) (contactId : string) : ContactsState :=
  let s1 := withContacts (delete contactId (r_contacts s)) s in
  withFavorites (without contactId (r_favorites s1)) s1.

Definition bulkDelete (ids : list string) (s : ContactsState) : ContactsState :=
  fold_left bulkDeleteStep ids s.

Definition fetchPending (s : ContactsState) : ContactsState :=
  mkContactsState (r_contacts s) (r_groups s) (r_callHistory s) (r_favorites s)
                  true None (r_lastSync s).

(** One turn of the [reduce] of [fetchContacts.fulfilled]: the
    accumulator is the new map, the pushes go to [state.favorites]. *)
Definition fetchFulfilledStep (acc : gmap string Contact * list string)
    (c : Contact) : gmap string Contact * list string :=
  (<[contact_id c := c]> acc.1,
   if isFavorite c then push (contact_id c) acc.2 else acc.2).

Definition fetchFulfilled (payload : list Contact) (now : Z)
    (s : ContactsState) : ContactsState :=
  let r := fold_left fetchFulfilledStep payload (∅, r_favorites s) in
  mkContactsState r.1 (r_groups s) (r_callHistory s) r.2 false (r_error s)
                  (Some now).

(** [action.error.message || 'Failed to fetch contacts'] *)
Definition fetchRejected (message : option string) (s : ContactsState)
    : ContactsState :=
  mkContactsState (r_contacts s) (r_groups s) (r_callHistory s) (r_favorites s)
    false
    (Some match message with
          | Some (String a m) => String a m
          | _ => "Failed to fetch contacts"%string
          end)
    (r_lastSync s).

Definition createFulfilled (c : Contact) (s : ContactsState) : ContactsState :=
  let s1 := withContacts (<[contact_id c := c]> (r_contacts s)) s in
  if isFavorite c then withFavorites (push (contact_id c) (r_favorites s1)) s1
  else s1.

Definition updateFulfilled (c : Contact) (s : ContactsState) : ContactsState :=
  let s1 := withContacts (<[contact_id c := c]> (r_contacts s)) s in
  if isFavorite c && negb (includes (contact_id c) (r_favorites s1))
  then withFavorites (push (contact_id c) (r_favorites s1)) s1
  else if negb (isFavorite c)
  then withFavorites (without (contact_id c) (r_favorites s1)) s1
  else s1.

Definition deleteFulfilled (contactId : string) (s : ContactsState) : ContactsState :=
  let s1 := withContacts (delete contactId (r_contacts s)) s in
  withFavorites (without contactId (r_favorites s1)) s1.

(** Selectors. *)
Definition selectAllContacts (s : ContactsState) : list Contact :=
  objectValues (r_contacts s).

Definition selectContactById (contactId : string) (s : ContactsState)
    : option Contact :=
  r_contacts s !! contactId.

Definition selectFavoriteContacts (s : ContactsState) : list Contact :=
  filter (λ c, includes (contact_id c) (r_favorites s) = true)
         (selectAllContacts s).

Definition selectContactsByGroup (groupId : string) (s : ContactsState)
    : list Contact :=
  filter (λ c, includes groupId (contact_groups c) = true) (selectAllContacts s).

(** The search slice keeps the ids of the results
    ([searchContacts.fulfilled]); [selectSearchResults] looks them up. *)
Definition searchFulfilled (payload : list Contact) : list string :=
  map contact_id payload.

Definition selectSearchResults (resultIds : list string) (s : ContactsState)
    : list Contact :=
  omap (λ id, r_contacts s !! id) resultIds.

End WithCallHistory.
Arguments ContactsState : clear implicits.
End Redux.

(** More sample data. *)
Definition noPhone : Contact :=
  {| contact_id := "9";
     contact_name := mkName "Nia" "Park" None;
     phones := [];
     emails := [];
     address := None;
     company := Some "Acme"%string;
     notes := None;
     avatar := None;
     contact_groups := ["work"%string];
     isFavorite := false;
     createdAt := 1672531200000;
     updatedAt := 1672531200000 |}.

(** A [SetContacts] call whose input repeats no id. *)
Definition distinctInput (op : StoreOp) : Prop :=
  match op with
  | SetContacts cs => NoDup (map contact_id cs)
  | _ => True
  end.

(** An API whose every call is fulfilled: it lists [cs] and echoes what it
    is sent. *)
Definition echoApi (cs : list Contact) : Api :=
  mkApi (Fulfilled cs) (λ c, Fulfilled c) (λ _ c, Fulfilled c)
        (λ _, Fulfilled tt) (Fulfilled []).

(** * Properties *)

(** ** Arrays *)

Lemma includes_true (x : string) (xs : list string) :
  includes x xs = true ↔ x ∈ xs.
Proof. unfold includes. apply bool_decide_eq_true. Qed.

Lemma includes_false (x : string) (xs : list string) :
  includes x xs = false ↔ x ∉ xs.
Proof. unfold includes. apply bool_decide_eq_false. Qed.

Lemma elem_of_without (x y : string) (xs : list string) :
  y ∈ without x xs ↔ y ∈ xs ∧ y ≠ x.
Proof. unfold without. rewrite list_elem_of_filter. tauto. Qed.

Lemma without_absent (x : string) (xs : list string) :
  x ∉ xs → without x xs = xs.
Proof.
  unfold without. induction xs as [|y ys IH]; intros Hx; [done|].
  rewrite filter_cons. apply not_elem_of_cons in Hx as [Hne Hys].
  destruct (decide (y ≠ x)) as [_|Heq].
  - by rewrite IH.
  - exfalso. apply Heq. congruence.
Qed.

Lemma NoDup_without (x : string) (xs : list string) :
  NoDup xs → NoDup (without x xs).
Proof. apply NoDup_filter. Qed.

Lemma NoDup_push (x : string) (xs : list string) :
  NoDup xs → x ∉ xs → NoDup (push x xs).
Proof.
  intros Hnd Hx. unfold push. apply NoDup_app. split; [done|]. split.
  - intros y Hy Hy'. apply list_elem_of_singleton in Hy'. by subst.
  - apply NoDup_singleton.
Qed.

Lemma elem_of_push (x y : string) (xs : list string) :
  y ∈ push x xs ↔ y ∈ xs ∨ y = x.
Proof. unfold push. rewrite elem_of_app, list_elem_of_singleton. tauto. Qed.

(** ** The Jotai actions compute what the Zustand actions compute *)

Lemma jotai_addContact (c : Contact) (s : ContactState) :
  Jotai.addContactAction c s = addContact c s.
Proof.
  unfold Jotai.addContactAction, addContact, push. cbn.
  by destruct (isFavorite c), (includes (contact_id c) (favorites s)).
Qed.


Lemma jotai_deleteContact (id : string) (s : ContactState) :
  Jotai.deleteContactAction id s = deleteContact id s.
Proof. reflexivity. Qed.

Lemma jotai_toggleFavorite (id : string) (s : ContactState) :
  Jotai.toggleFavoriteAction id s = toggleFavorite id s.
Proof.
  unfold Jotai.toggleFavoriteAction, toggleFavorite, push.
  by destruct (contacts s !! id).
Qed.

(** ** [setContacts]: what the scan builds *)

Lemma setContacts_fold (cs : list Contact) (s : ContactState) :
  fold_left setContactsStep cs s =
  mkState (fold_left (λ acc c, <[contact_id c := c]> acc) cs (contacts s))
          (groups s)
          (favorites s ++ map contact_id (filter (λ c, isFavorite c = true) cs))
          (loading s) (error s).
Proof.
  revert s. induction cs as [|c cs IH]; intros s.
  - cbn. rewrite app_nil_r. by destruct s.
  - cbn [fold_left]. rewrite IH.
    unfold setContactsStep, push. destruct (isFavorite c) eqn:Hf.
    + rewrite filter_cons_True by done. cbn. by rewrite <- app_assoc.
    + rewrite filter_cons_False by congruence. done.
Qed.

Lemma setContacts_spec (cs : list Contact) (s : ContactState) :
  setContacts cs s =
  mkState (lastWins cs) (groups s)
          (map contact_id (filter (λ c, isFavorite c = true) cs))
          (loading s) (error s).
Proof. unfold setContacts. by rewrite setContacts_fold. Qed.

Lemma jotai_setContacts (cs : list Contact) (s : ContactState) :
  Jotai.setContactsAction cs s = setContacts cs s.
Proof. by rewrite setContacts_spec. Qed.

Lemma lastWins_fold (cs : list Contact) (m : gmap string Contact) (k : string) :
  fold_left (λ acc c, <[contact_id c := c]> acc) cs m !! k =
  match last (filter (λ c, contact_id c = k) cs) with
  | Some c => Some c
  | None => m !! k
  end.
Proof.
  induction cs as [|c cs IH] using rev_ind; [done|].
  rewrite fold_left_app, filter_app. cbn [fold_left].
  destruct (decide (contact_id c = k)) as [Hk|Hk].
  - rewrite filter_cons_True, filter_nil by done.
    rewrite last_snoc. subst k. by rewrite lookup_insert_eq.
  - rewrite filter_cons_False, filter_nil, app_nil_r by done.
    by rewrite lookup_insert_ne.
Qed.

(** Under every id the map holds the last entry of the input carrying
    that id, and nothing under an id absent from the input. *)
Lemma lastWins_lookup (cs : list Contact) (k : string) :
  lastWins cs !! k = last (filter (λ c, contact_id c = k) cs).
Proof.
  unfold lastWins. rewrite lastWins_fold, lookup_empty. by destruct (last _).
Qed.

(** ** Deleting a group *)

Lemma withGroups_same (gs : list string) (c : Contact) :
  sameExceptGroups c (withGroups gs c).
Proof. by repeat split. Qed.

(** C6.  [deleteGroup g] removes [g] from the group map and from the
    membership list of every stored contact: afterwards no contact lists
    [g]; the contacts keep their keys and every other field, their other
    memberships stay in order, and the favorites list, the loading flag
    and the error are untouched.  The Valtio action computes the same
    store. *)
Theorem deleteGroup_cascade (g : string) (s : ContactState) :
  groups (deleteGroup g s) = delete g (groups s) ∧
  groups (deleteGroup g s) !! g = None ∧
  dom (contacts (deleteGroup g s)) = dom (contacts s) ∧
  (∀ k c', contacts (deleteGroup g s) !! k = Some c' →
     (g ∉ contact_groups c') ∧
     (∃ c, contacts s !! k = Some c ∧ sameExceptGroups c c' ∧
           contact_groups c' = filter (λ h, h ≠ g) (contact_groups c))) ∧
  favorites (deleteGroup g s) = favorites s ∧
  loading (deleteGroup g s) = loading s ∧
  error (deleteGroup g s) = error s ∧
  Valtio.deleteGroup g s = deleteGroup g s.
Proof.
  unfold deleteGroup. cbn. split_and!; try done.
  - apply lookup_delete_eq.
  - apply dom_fmap_L.
  - intros k c' Hk. rewrite lookup_fmap in Hk.
    destruct (contacts s !! k) as [c|] eqn:Hc; [|done].
    cbn in Hk. injection Hk as <-. split.
    + cbn. rewrite elem_of_without. tauto.
    + exists c. split_and!; [done|apply withGroups_same|done].
Qed.

(** ** Calls that name an id the map does not hold *)





Lemma setGroups_fold (gs : list ContactGroup) (s : ContactState) :
  fold_left (λ st g, setGroupsMap (<[group_id g := g]> (groups st)) st) gs s =
  setGroupsMap (fold_left (λ acc g, <[group_id g := g]> acc) gs (groups s)) s.
Proof.
  revert s. induction gs as [|g gs IH]; intros s; [by destruct s|].
  cbn [fold_left]. by rewrite IH.
Qed.








(** ** The identifier of a stored contact *)

(** C5, as stated, fails: [Object.assign] copies an [id] property of the
    update onto the stored contact, which then carries an id other than
    the key it is stored under. *)
Lemma updateContact_overwrites_id :
  contact_id <$>
    contacts (updateContact "1" (renameTo "2") (addContact johnDoe initialState))
      !! "1"
  = Some "2".
Proof. reflexivity. Qed.

Lemma applyOp_idsMatchKeys (op : StoreOp) (s : ContactState) :
  ¬ renames op → idsMatchKeys s → idsMatchKeys (applyOp s op).
Proof.
  intros Hop Hs. destruct op as [cs|c|id u|id|id|gs|g|id u|id| |]; cbn [applyOp].
  - rewrite setContacts_spec. intros k c Hk. cbn in Hk.
    rewrite lastWins_lookup in Hk. apply last_Some_elem_of in Hk.
    by apply list_elem_of_filter in Hk as [Hk _].
  - assert (idsMatchKeys (setContactsMap (<[contact_id c:=c]> (contacts s)) s))
      as Hins.
    { intros k d Hk. cbn in Hk.
      destruct (decide (contact_id c = k)) as [<-|Hne].
      - rewrite lookup_insert_eq in Hk. congruence.
      - rewrite lookup_insert_ne in Hk by done. by apply Hs. }
    unfold addContact. by case_match.
  - unfold updateContact. destruct (contacts s !! id) as [c|] eqn:Hc; [|done].
    assert (contact_id (assign c u) = id) as Hid.
    { cbn in Hop. cbn. destruct (p_id u) as [i|]; cbn.
      - destruct (decide (i = id)); [done|]. by exfalso; apply Hop.
      - by apply Hs. }
    assert (idsMatchKeys (setContactsMap (<[id:=assign c u]> (contacts s)) s))
      as Hins.
    { intros k d Hk. cbn in Hk.
      destruct (decide (id = k)) as [<-|Hne].
      - rewrite lookup_insert_eq in Hk. congruence.
      - rewrite lookup_insert_ne in Hk by done. by apply Hs. }
    by repeat case_match.
  - intros k c Hk. cbn in Hk. apply lookup_delete_Some in Hk as [_ Hk].
    by apply Hs.
  - unfold toggleFavorite. destruct (contacts s !! id) as [c|] eqn:Hc; [|done].
    assert (idsMatchKeys (setContactsMap
              (<[id:=withFavorite (negb (isFavorite c)) c]> (contacts s)) s))
      as Hins.
    { intros k d Hk. cbn in Hk.
      destruct (decide (id = k)) as [<-|Hne].
      - rewrite lookup_insert_eq in Hk. injection Hk as <-. cbn. by apply Hs.
      - rewrite lookup_insert_ne in Hk by done. by apply Hs. }
    by repeat case_match.
  - unfold setGroups. by rewrite setGroups_fold.
  - done.
  - unfold updateGroup. by destruct (groups s !! id).
  - intros k c Hk. cbn in Hk. rewrite lookup_fmap in Hk.
    destruct (contacts s !! k) as [d|] eqn:Hd; [|done].
    cbn in Hk. injection Hk as <-. cbn. by apply Hs.
  - done.
  - intros k c Hk. cbn in Hk. by rewrite lookup_empty in Hk.
Qed.

Lemma runOps_idsMatchKeys (ops : list StoreOp) (s : ContactState) :
  Forall (λ op, ¬ renames op) ops → idsMatchKeys s → idsMatchKeys (runOps ops s).
Proof.
  unfold runOps. revert s.
  induction ops as [|op ops IH]; intros s Hops Hs; [done|].
  apply Forall_cons in Hops as [Hop Hops]. cbn.
  by apply IH, applyOp_idsMatchKeys.
Qed.

(** C5, amended.  [updateContact] never moves a contact to another key
    and leaves the set of keys as it was; the stored contact's [id]
    property becomes the update's [id] when the update carries one and
    stays what it was otherwise.  Hence after any sequence of store calls
    from the initial store in which no update carries a different [id],
    every stored contact carries the key it is stored under, before and
    after any further such update. *)
Theorem contact_id_stable (ops : list StoreOp)
    (Hops : Forall (λ op, ¬ renames op) ops) :
  let s := runOps ops initialState in
  idsMatchKeys s ∧
  ∀ id u c, contacts s !! id = Some c →
    dom (contacts (updateContact id u s)) = dom (contacts s) ∧
    contacts (updateContact id u s) !! id = Some (assign c u) ∧
    contact_id (assign c u) = over (p_id u) id ∧
    (p_id u = None ∨ p_id u = Some id → contact_id (assign c u) = id).
Proof.
  intros s.
  assert (idsMatchKeys s) as Hs.
  { apply runOps_idsMatchKeys; [done|]. intros k c Hk. cbn in Hk.
    by rewrite lookup_empty in Hk. }
  split; [done|]. intros id u c Hc.
  assert (contacts (updateContact id u s) = <[id:=assign c u]> (contacts s))
    as ->.
  { unfold updateContact. rewrite Hc. cbv zeta.
    destruct (isFavorite (assign c u) && _); [done|].
    by destruct (negb (isFavorite (assign c u)) && _). }
  assert (contact_id (assign c u) = over (p_id u) id) as Hid.
  { cbn. by rewrite (Hs _ _ Hc). }
  split_and!.
  - rewrite dom_insert_L. apply subseteq_union_1_L, singleton_subseteq_l.
    by apply elem_of_dom_2 in Hc.
  - apply lookup_insert_eq.
  - done.
  - rewrite Hid. by intros [-> | ->].
Qed.

Lemma contact_id_stable_witness :
  Forall (λ op, ¬ renames op)
    [AddContact johnDoe; UpdateContact "1" markFavorite; ToggleFavorite "1"] ∧
  idsMatchKeys
    (runOps [AddContact johnDoe; UpdateContact "1" markFavorite;
             ToggleFavorite "1"] initialState).
Proof.
  assert (Forall (λ op, ¬ renames op)
    [AddContact johnDoe; UpdateContact "1" markFavorite; ToggleFavorite "1"])
    as H.
  { repeat constructor; cbn; tauto. }
  split; [exact H|]. exact (proj1 (contact_id_stable _ H)).
Defined.

(** ** The favorites list and the favorite flags *)

(** Storing [c'] under [id] with a favorites list that agrees with [c']
    at [id] and is as before elsewhere keeps the list consistent. *)
Lemma consistent_after_insert (s : ContactState) (id : string) (c' : Contact)
    (favs' : list string) :
  favoritesConsistent s →
  NoDup favs' →
  (∀ i, i ≠ id → i ∈ favs' ↔ i ∈ favorites s) →
  (id ∈ favs' ↔ isFavorite c' = true) →
  favoritesConsistent
    (setFavorites favs' (setContactsMap (<[id:=c']> (contacts s)) s)).
Proof.
  intros [_ Hs] Hnd Hother Hid. split; [done|]. cbn. intros i.
  destruct (decide (i = id)) as [->|Hne].
  - rewrite lookup_insert_eq, Hid. split.
    + eauto.
    + intros (d & Hd & Hf). congruence.
  - rewrite lookup_insert_ne by done. rewrite Hother by done. apply Hs.
Qed.

Ltac consistent_side :=
  lazymatch goal with
  | |- favoritesConsistent _ => assumption
  | |- NoDup (push _ _) => by apply NoDup_push
  | |- NoDup (without _ _) => by apply NoDup_without
  | |- NoDup _ => assumption
  | |- _ =>
      cbn [isFavorite withFavorite favorites setContactsMap];
      try (intros ? ?);
      rewrite ?elem_of_push, ?elem_of_without;
      intuition congruence
  end.

Ltac expose_favorites :=
  lazymatch goal with
  | |- favoritesConsistent (setContactsMap ?m ?s) =>
      change (favoritesConsistent
                (setFavorites (favorites s) (setContactsMap m s)))
  | |- _ => idtac
  end.

Lemma updateContact_consistent (id : string) (u : PartialContact)
    (s : ContactState) :
  favoritesConsistent s → favoritesConsistent (updateContact id u s).
Proof.
  intros Hs. unfold updateContact.
  destruct (contacts s !! id) as [c|] eqn:Hc; [|done]. cbv zeta.
  cbn [favorites setContactsMap].
  pose proof (proj1 Hs) as Hnd.
  destruct (isFavorite (assign c u)) eqn:Hf,
           (includes id (favorites s)) eqn:Hin; cbn [andb negb];
    [apply includes_true in Hin | apply includes_false in Hin
    |apply includes_true in Hin | apply includes_false in Hin];
    expose_favorites; apply consistent_after_insert; consistent_side.
Qed.

Lemma toggleFavorite_consistent (id : string) (s : ContactState) :
  favoritesConsistent s → favoritesConsistent (toggleFavorite id s).
Proof.
  intros Hs. unfold toggleFavorite.
  destruct (contacts s !! id) as [c|] eqn:Hc; [|done]. cbv zeta.
  cbn [favorites setContactsMap isFavorite withFavorite].
  pose proof (proj1 Hs) as Hnd.
  destruct (negb (isFavorite c)) eqn:Hf;
    [destruct (includes id (favorites s)) eqn:Hin; cbn [negb];
     [apply includes_true in Hin | apply includes_false in Hin] |];
    expose_favorites; apply consistent_after_insert; consistent_side.
Qed.

Lemma deleteContact_consistent (id : string) (s : ContactState) :
  favoritesConsistent s → favoritesConsistent (deleteContact id s).
Proof.
  intros [Hnd Hs]. unfold favoritesConsistent, deleteContact.
  cbn [favorites contacts setFavorites setContactsMap]. split.
  - by apply NoDup_without.
  - intros i. rewrite elem_of_without. destruct (decide (i = id)) as [->|Hne].
    + rewrite lookup_delete_eq. split; [tauto|]. by intros (c & Hc & _).
    + rewrite lookup_delete_ne by done. rewrite <- Hs. tauto.
Qed.

(** [addContact] keeps the list consistent when the new contact is a
    favorite or its id is not listed; the remaining case is the one of
    [addContact_overwrite_keeps_favorite] below. *)
Lemma addContact_consistent (c : Contact) (s : ContactState) :
  favoritesConsistent s →
  isFavorite c = true ∨ contact_id c ∉ favorites s →
  favoritesConsistent (addContact c s).
Proof.
  intros Hs Hc. unfold addContact. cbv zeta. cbn [favorites setContactsMap].
  pose proof (proj1 Hs) as Hnd.
  destruct (isFavorite c) eqn:Hf,
           (includes (contact_id c) (favorites s)) eqn:Hin; cbn [andb negb];
    [apply includes_true in Hin | apply includes_false in Hin
    |apply includes_true in Hin | apply includes_false in Hin];
    expose_favorites; apply consistent_after_insert; consistent_side.
Qed.

(** The invariant holds along every sequence of upserts, updates,
    toggles and removes in which no upsert stores a non-favorite over a
    listed id. *)
Lemma runOps_consistent (ops : list StoreOp) (s : ContactState) :
  favoritesConsistent s → allReconcile ops s →
  favoritesConsistent (runOps ops s).
Proof.
  unfold runOps. revert s.
  induction ops as [|op ops IH]; intros s Hs Hops; [done|].
  destruct Hops as [Hop Hops]. cbn [fold_left]. apply IH; [|done].
  destruct op; cbn [applyOp]; try done.
  - by apply addContact_consistent.
  - by apply updateContact_consistent.
  - by apply deleteContact_consistent.
  - by apply toggleFavorite_consistent.
Qed.

Lemma initialState_consistent : favoritesConsistent initialState.
Proof.
  split; [constructor|]. intros i. split.
  - intros Hi. by apply elem_of_nil in Hi.
  - intros (c & Hc & _). cbn in Hc. by rewrite lookup_empty in Hc.
Qed.

(** C1.  The code breaks the invariant: [addContact] only ever appends
    to the favorites list, so storing a non-favorite contact over a
    listed id leaves the id listed.  After [addContact] of a favorite
    contact "1" and [addContact] of a non-favorite contact "1" the list
    is ["1"] while the stored contact is not a favorite; the Jotai
    action does the same. *)
Theorem addContact_overwrite_keeps_favorite :
  let s := runOps [AddContact johnDoeFavorite; AddContact johnDoe] initialState in
  Forall isContactOp [AddContact johnDoeFavorite; AddContact johnDoe] ∧
  favorites s = ["1"] ∧
  isFavorite <$> contacts s !! "1" = Some false ∧
  ¬ favoritesConsistent s ∧
  Jotai.addContactAction johnDoe
    (Jotai.addContactAction johnDoeFavorite initialState) = s.
Proof.
  intros s. assert (favorites s = ["1"]) as Hfav by reflexivity.
  assert (contacts s !! "1" = Some johnDoe) as Hc by reflexivity.
  split_and!.
  - repeat constructor.
  - done.
  - by rewrite Hc.
  - intros [_ Hs]. destruct (proj1 (Hs "1")) as (c & Hc' & Hf).
    + rewrite Hfav. apply list_elem_of_singleton. reflexivity.
    + rewrite Hc in Hc'. injection Hc' as <-. discriminate Hf.
  - by rewrite !jotai_addContact.
Qed.

(** ** [setContacts] *)

Lemma filter_unique_id (cs : list Contact) (c : Contact) :
  NoDup (map contact_id cs) → c ∈ cs →
  filter (λ d, contact_id d = contact_id c) cs = [c].
Proof.
  induction cs as [|d ds IH]; intros Hnd Hc.
  - by apply elem_of_nil in Hc.
  - cbn in Hnd. apply NoDup_cons in Hnd as [Hd Hnd].
    apply elem_of_cons in Hc as [->|Hc].
    + rewrite filter_cons_True by done. f_equal.
      destruct (filter _ ds) as [|e es] eqn:Hfl; [done|].
      assert (e ∈ filter (λ d0, contact_id d0 = contact_id d) ds) as He
        by (rewrite Hfl; apply list_elem_of_here).
      apply list_elem_of_filter in He as [Heq He].
      exfalso. apply Hd. rewrite <- Heq. apply list_elem_of_fmap. by exists e.
    + rewrite filter_cons_False; [by apply IH|].
      intros Heq. apply Hd. rewrite Heq. apply list_elem_of_fmap. by exists c.
Qed.

(** What [setContacts] does on every input, and the invariant it
    restores when the input ids are pairwise distinct. *)
Lemma setContacts_distinct_ids (cs : list Contact) (s : ContactState) :
  contacts (setContacts cs s) = lastWins cs ∧
  (∀ k, contacts (setContacts cs s) !! k
        = last (filter (λ c, contact_id c = k) cs)) ∧
  favorites (setContacts cs s)
    = map contact_id (filter (λ c, isFavorite c = true) cs) ∧
  groups (setContacts cs s) = groups s ∧
  (NoDup (map contact_id cs) → favoritesConsistent (setContacts cs s)).
Proof.
  rewrite setContacts_spec. cbn. split_and!; try done.
  - apply lastWins_lookup.
  - intros Hnd. split; cbn.
    + eapply sublist_NoDup; [exact Hnd|].
      apply (fmap_sublist contact_id), sublist_filter.
    + intros i. rewrite lastWins_lookup. split.
      * intros Hi. apply list_elem_of_fmap in Hi as (c & -> & Hc).
        apply list_elem_of_filter in Hc as [Hf Hc].
        exists c. by rewrite filter_unique_id.
      * intros (c & Hc & Hf). apply last_Some_elem_of in Hc.
        apply list_elem_of_filter in Hc as [<- Hc].
        apply list_elem_of_fmap. exists c. split; [done|].
        by apply list_elem_of_filter.
Qed.

(** C4.  The code breaks the claim on inputs that repeat an id: the
    scan appends the id of every favorite entry it meets, so the id of a
    favorite given twice is listed twice, and an id whose last entry is
    not a favorite stays listed when an earlier entry was one.  The
    Jotai action builds the same store. *)
Theorem setContacts_repeated_id :
  let prior := addContact johnDoe initialState in
  favorites (setContacts [janeSmith; janeSmith] prior) = ["2"; "2"] ∧
  ¬ NoDup (favorites (setContacts [janeSmith; janeSmith] prior)) ∧
  favorites (setContacts [johnDoeFavorite; johnDoe] prior) = ["1"] ∧
  contacts (setContacts [johnDoeFavorite; johnDoe] prior) !! "1"
    = Some johnDoe ∧
  isFavorite johnDoe = false ∧
  ¬ favoritesConsistent (setContacts [johnDoeFavorite; johnDoe] prior) ∧
  Jotai.setContactsAction [janeSmith; janeSmith] prior
    = setContacts [janeSmith; janeSmith] prior.
Proof.
  intros prior.
  assert (favorites (setContacts [janeSmith; janeSmith] prior) = ["2"; "2"])
    as Hdup by reflexivity.
  assert (favorites (setContacts [johnDoeFavorite; johnDoe] prior) = ["1"])
    as Hfav by reflexivity.
  assert (contacts (setContacts [johnDoeFavorite; johnDoe] prior) !! "1"
          = Some johnDoe) as Hc by reflexivity.
  split_and!; try done.
  - rewrite Hdup. intros Hnd. apply NoDup_cons in Hnd as [Hnd _].
    apply Hnd, list_elem_of_singleton. reflexivity.
  - intros [_ Hs]. destruct (proj1 (Hs "1")) as (c & Hc' & Hf).
    + rewrite Hfav. apply list_elem_of_singleton. reflexivity.
    + rewrite Hc in Hc'. injection Hc' as <-. discriminate Hf.
Qed.

(** ** Toggling twice *)

Lemma withFavorite_twice (c : Contact) :
  withFavorite (negb (negb (isFavorite c)))
               (withFavorite (negb (isFavorite c)) c) = c.
Proof. destruct c as [? ? ? ? ? ? ? ? ? f ? ?]. cbn. by destruct f. Qed.

Lemma toggleFavorite_contacts (s : ContactState) (id : string) (c : Contact) :
  contacts s !! id = Some c →
  contacts (toggleFavorite id s)
  = <[id:=withFavorite (negb (isFavorite c)) c]> (contacts s).
Proof.
  intros Hc. unfold toggleFavorite. rewrite Hc. cbv zeta.
  cbn [isFavorite withFavorite favorites setContactsMap].
  destruct (negb (isFavorite c)); [|reflexivity].
  by destruct (negb (includes id (favorites s))).
Qed.

(** Whatever the favorites list holds, two toggles give back the contact
    map, and with it the flag. *)
Lemma toggleFavorite_twice_contacts (s : ContactState) (id : string)
    (c : Contact) :
  contacts s !! id = Some c →
  contacts (toggleFavorite id (toggleFavorite id s)) = contacts s.
Proof.
  intros Hc.
  rewrite (toggleFavorite_contacts _ id (withFavorite (negb (isFavorite c)) c)).
  - rewrite (toggleFavorite_contacts s id c Hc). cbn [isFavorite withFavorite].
    rewrite insert_insert_eq, withFavorite_twice. by apply insert_id.
  - rewrite (toggleFavorite_contacts s id c Hc). apply lookup_insert_eq.
Qed.

(** C8, as stated, fails on a store in which the list and the flag
    disagree at the id, and the store's own calls reach such a store:
    after a favorite "1" was overwritten by a non-favorite "1" the id is
    listed; two toggles later it is not. *)
Lemma toggleFavorite_twice_drops_listed_id :
  let s := runOps [AddContact johnDoeFavorite; AddContact johnDoe] initialState in
  is_Some (contacts s !! "1") ∧
  "1" ∈ favorites s ∧
  "1" ∉ favorites (toggleFavorite "1" (toggleFavorite "1" s)).
Proof.
  intros s. split_and!.
  - by exists johnDoe.
  - change (favorites s) with ["1"]. apply list_elem_of_singleton. reflexivity.
  - change (favorites (toggleFavorite "1" (toggleFavorite "1" s)))
      with (@nil string).
    apply not_elem_of_nil.
Qed.

(** C8, amended.  For an id the map holds, in a store whose favorites
    list agrees with the flag at that id, two toggles in a row give back
    the contact map (so the flag), the groups, the loading flag and the
    error, and a favorites list with the members it had; the Jotai
    action does the same. *)
Theorem toggleFavorite_twice (s : ContactState) (id : string) (c : Contact)
    (Hc : contacts s !! id = Some c) (Hagree : agreesAt id s) :
  let s2 := toggleFavorite id (toggleFavorite id s) in
  contacts s2 = contacts s ∧
  isFavorite <$> contacts s2 !! id = Some (isFavorite c) ∧
  (∀ x, x ∈ favorites s2 ↔ x ∈ favorites s) ∧
  groups s2 = groups s ∧ loading s2 = loading s ∧ error s2 = error s ∧
  Jotai.toggleFavoriteAction id (Jotai.toggleFavoriteAction id s) = s2.
Proof.
  intros s2.
  assert (id ∈ favorites s ↔ isFavorite c = true) as Hin.
  { unfold agreesAt in Hagree. rewrite Hagree, Hc. split.
    - by intros (d & [= <-] & Hf).
    - eauto. }
  assert (contacts s2 = contacts s ∧
          (∀ x, x ∈ favorites s2 ↔ x ∈ favorites s) ∧
          groups s2 = groups s ∧ loading s2 = loading s ∧ error s2 = error s)
    as (Hm & Hf & Hg & Hl & He).
  { assert (<[id:=c]> (contacts s) = contacts s) as Hid by by apply insert_id.
    assert (∀ f, toggleFavorite id
              (setFavorites f (setContactsMap
                 (<[id:=withFavorite (negb (isFavorite c)) c]> (contacts s)) s))
            = let s1 := setContactsMap (contacts s) (setFavorites f s) in
              if isFavorite c
              then if negb (includes id f)
                   then setFavorites (push id f) s1 else s1
              else setFavorites (without id f) s1) as Hstep.
    { intros f. unfold toggleFavorite. cbn [contacts setFavorites setContactsMap].
      rewrite lookup_insert_eq. cbv zeta.
      cbn [isFavorite withFavorite favorites contacts groups loading error
           setFavorites setContactsMap].
      rewrite insert_insert_eq, withFavorite_twice, negb_involutive, Hid.
      reflexivity. }
    assert (toggleFavorite id s =
            setFavorites
              (if isFavorite c then without id (favorites s)
               else if includes id (favorites s) then favorites s
                    else push id (favorites s))
              (setContactsMap
                 (<[id:=withFavorite (negb (isFavorite c)) c]> (contacts s)) s))
      as Hfirst.
    { unfold toggleFavorite. rewrite Hc. cbv zeta.
      cbn [isFavorite withFavorite favorites setContactsMap].
      destruct (isFavorite c); cbn [negb]; [reflexivity|].
      destruct (includes id (favorites s)); reflexivity. }
    subst s2. rewrite Hfirst, Hstep. cbv zeta.
    destruct (isFavorite c) eqn:Hfc.
    - (* a favorite: unlisted, then listed again *)
      assert (includes id (without id (favorites s)) = false) as ->.
      { apply includes_false. rewrite elem_of_without. tauto. }
      cbn [negb contacts favorites groups loading error setFavorites
           setContactsMap].
      split_and!; try done. intros x.
      rewrite elem_of_push, elem_of_without.
      destruct (decide (x = id)) as [->|Hne]; tauto.
    - (* not a favorite: listed, then unlisted again *)
      assert (includes id (favorites s) = false) as Hnot.
      { apply includes_false. rewrite Hin. done. }
      rewrite Hnot.
      cbn [contacts favorites groups loading error setFavorites setContactsMap].
      split_and!; try done. intros x.
      rewrite elem_of_without, elem_of_push.
      apply includes_false in Hnot.
      destruct (decide (x = id)) as [->|Hne]; tauto. }
  split_and!; [done| by rewrite Hm, Hc |done|done|done|done|].
  by rewrite !jotai_toggleFavorite.
Qed.

Lemma toggleFavorite_twice_witness :
  contacts (addContact janeSmith initialState) !! "2" = Some janeSmith ∧
  agreesAt "2" (addContact janeSmith initialState) ∧
  contacts (toggleFavorite "2"
              (toggleFavorite "2" (addContact janeSmith initialState)))
    = contacts (addContact janeSmith initialState).
Proof.
  assert (agreesAt "2" (addContact janeSmith initialState)) as Hag.
  { split.
    - intros _. exists janeSmith. split; reflexivity.
    - intros _. change (favorites (addContact janeSmith initialState))
        with ["2"]. apply list_elem_of_singleton. reflexivity. }
  split; [reflexivity|]. split; [exact Hag|].
  exact (proj1 (toggleFavorite_twice (addContact janeSmith initialState) "2"
                  janeSmith eq_refl Hag)).
Defined.

(** ** The gateway: what a rejected remote call leaves behind *)

(** C7.  When the remote call is rejected with [e], every async action
    stores [errorText fallback e] (the message of an [Error], the
    action's own fallback text for any other thrown value) in the
    store's error field and touches neither map nor the favorites list;
    [fetchContacts] and [fetchGroups] then fulfil (nothing is raised to
    the caller, and [fetchContacts] resets the loading flag), while
    [createContact], [saveContact] and [removeContact] reject with the
    very [e] they caught.  The same holds for the continuations run on
    whatever the store is when the promise settles. *)
Theorem gateway_failure_propagation (api : Api) (s : ContactState) (e : Thrown) :
  (getContacts api = Rejected e →
     fetchContacts api s =
       (mkState (contacts s) (groups s) (favorites s) false
                (Some (errorText "Failed to fetch contacts" e)),
        Fulfilled tt)) ∧
  (getGroups api = Rejected e →
     fetchGroups api s =
       (setError (Some (errorText "Failed to fetch groups" e)) s, Fulfilled tt)) ∧
  (∀ data uuid now,
     createContactApi api (withIdentity uuid now data) = Rejected e →
     createContact api data uuid now s =
       (setError (Some (errorText "Failed to create contact" e)) s, Rejected e)) ∧
  (∀ c now,
     updateContactApi api (contact_id c) (withUpdatedAt now c) = Rejected e →
     saveContact api c now s =
       (setError (Some (errorText "Failed to save contact" e)) s, Rejected e)) ∧
  (∀ id,
     deleteContactApi api id = Rejected e →
     removeContact api id s =
       (setError (Some (errorText "Failed to delete contact" e)) s, Rejected e)) ∧
  (∀ fallback m, errorText fallback (ThrownError m) = m) ∧
  (∀ fallback v, errorText fallback (ThrownValue v) = fallback) ∧
  (∀ id,
     fetchContactsSettle (Rejected e) s =
       (setLoading false
          (setError (Some (errorText "Failed to fetch contacts" e)) s),
        Fulfilled tt) ∧
     snd (fetchGroupsSettle (Rejected e) s) = Fulfilled tt ∧
     snd (createContactSettle (Rejected e) s) = Rejected e ∧
     snd (saveContactSettle id (Rejected e) s) = Rejected e ∧
     snd (removeContactSettle id (Rejected e) s) = Rejected e).
Proof.
  split_and!.
  - intros H. unfold fetchContacts. by rewrite H.
  - intros H. unfold fetchGroups. by rewrite H.
  - intros data uuid now H. unfold createContact. by rewrite H.
  - intros c now H. unfold saveContact. by rewrite H.
  - intros id H. unfold removeContact. by rewrite H.
  - done.
  - done.
  - done.
Qed.

Lemma gateway_failure_propagation_witness :
  fetchContacts (failingApi (ThrownError "Network Error")) initialState =
    (mkState ∅ ∅ [] false (Some "Network Error"), Fulfilled tt) ∧
  removeContact (failingApi (ThrownError "Network Error")) "1" initialState =
    (mkState ∅ ∅ [] false (Some "Network Error"),
     Rejected (ThrownError "Network Error")).
Proof.
  destruct (gateway_failure_propagation
              (failingApi (ThrownError "Network Error")) initialState
              (ThrownError "Network Error")) as (H1 & _ & _ & _ & H5 & _).
  split.
  - exact (H1 eq_refl).
  - exact (H5 "1" eq_refl).
Defined.

(** ** The search service *)

Lemma insertSorted_perm {A} (cmp : A → A → Z) (x : A) (xs : list A) :
  insertSorted cmp x xs ≡ₚ x :: xs.
Proof.
  induction xs as [|y ys IH]; [done|]. cbn.
  destruct (cmp x y <=? 0); [done|]. rewrite IH. apply Permutation_swap.
Qed.

Lemma sort_perm {A} (cmp : A → A → Z) (xs : list A) : sort cmp xs ≡ₚ xs.
Proof.
  induction xs as [|x xs IH]; [done|]. cbn.
  by rewrite insertSorted_perm, IH.
Qed.

Lemma insertSorted_HdRel {A} (cmp : A → A → Z) (x y : A) (ys : list A) :
  cmp y x ≤ 0 → HdRel (λ a b, cmp a b ≤ 0) y ys →
  HdRel (λ a b, cmp a b ≤ 0) y (insertSorted cmp x ys).
Proof.
  intros Hyx Hhd. destruct ys as [|z zs]; cbn.
  - by constructor.
  - destruct (cmp x z <=? 0); constructor; [done|].
    by apply HdRel_inv in Hhd.
Qed.

Lemma insertSorted_sorted {A} (cmp : A → A → Z) (x : A) (xs : list A) :
  (∀ y, y ∈ xs → 0 < cmp x y → cmp y x ≤ 0) →
  Sorted (λ a b, cmp a b ≤ 0) xs →
  Sorted (λ a b, cmp a b ≤ 0) (insertSorted cmp x xs).
Proof.
  induction xs as [|y ys IH]; intros Htot Hs; cbn.
  - by repeat constructor.
  - destruct (cmp x y <=? 0) eqn:Hxy.
    + constructor; [done|]. constructor. lia.
    + apply Sorted_inv in Hs as [Hs Hhd]. constructor.
      * apply IH; [|done]. intros z Hz. apply Htot. by right.
      * apply insertSorted_HdRel; [|done]. apply Htot; [by left|lia].
Qed.

Lemma sort_sorted {A} (cmp : A → A → Z) (xs : list A) :
  (∀ a b, a ∈ xs → b ∈ xs → 0 < cmp a b → cmp b a ≤ 0) →
  Sorted (λ a b, cmp a b ≤ 0) (sort cmp xs).
Proof.
  induction xs as [|x xs IH]; intros Htot; [constructor|].
  change (sort cmp (x :: xs)) with (insertSorted cmp x (sort cmp xs)).
  apply insertSorted_sorted.
  - intros y Hy. rewrite sort_perm in Hy. apply Htot; [by left|by right].
  - apply IH. intros a b Ha Hb. apply Htot; by right.
Qed.

Lemma inSomeGroup_true (gs : list string) (c : Contact) :
  inSomeGroup gs c = true ↔ ∃ g, g ∈ contact_groups c ∧ g ∈ gs.
Proof.
  unfold inSomeGroup. rewrite existsb_exists. split.
  - intros (g & Hg & Hin). exists g. split.
    + by apply list_elem_of_In.
    + by apply includes_true.
  - intros (g & Hg & Hin). exists g. split.
    + by apply list_elem_of_In.
    + by apply includes_true.
Qed.

Lemma elem_of_applyFilters (cs : list Contact) (req : SearchContactsRequest)
    (c : Contact) :
  c ∈ applyFilters cs req ↔ c ∈ cs ∧ passes req c.
Proof.
  unfold applyFilters, passes.
  destruct (activeGroups req) as [gs|], (favoritesOnly req);
    rewrite ?list_elem_of_filter, ?inSomeGroup_true.
  - split.
    + intros (Hf & Hg & Hc). split_and!; [done| |done].
      by intros ? [= <-].
    + intros (Hc & Hg & Hf). split_and!; auto.
  - split.
    + intros (Hg & Hc). split_and!; [done| |done].
      by intros ? [= <-].
    + intros (Hc & Hg & _). auto.
  - split.
    + intros (Hf & Hc). split_and!; done.
    + intros (Hc & _ & Hf). auto.
  - split.
    + intros Hc. split_and!; done.
    + by intros (Hc & _).
Qed.

Lemma applyFilters_sublist (cs : list Contact) (req : SearchContactsRequest) :
  applyFilters cs req `sublist_of` cs.
Proof.
  unfold applyFilters.
  destruct (activeGroups req) as [gs|], (favoritesOnly req);
    try done; try apply sublist_filter.
  etrans; apply sublist_filter.
Qed.

Lemma slice_page {A} (o l : Z) (xs : list A) :
  0 ≤ o → 0 ≤ l →
  slice o (o + l) xs = take (Z.to_nat l) (drop (Z.to_nat o) xs).
Proof.
  intros Ho Hl. unfold slice, relativeIndex.
  destruct (o <? 0) eqn:Ho'; [lia|]. destruct (o + l <? 0) eqn:Hol; [lia|].
  destruct (decide (Z.of_nat (length xs) ≤ o)) as [Hge|Hlt].
  - rewrite !drop_ge by lia. by rewrite !take_nil.
  - replace (Z.to_nat (o `min` Z.of_nat (length xs))) with (Z.to_nat o) by lia.
    destruct (decide (o + l ≤ Z.of_nat (length xs))) as [Hin|Hout].
    + f_equal. lia.
    + rewrite !take_ge; [done| |]; rewrite length_drop; lia.
Qed.

(** C2, as stated, fails twice over.  A page size of 0 is replaced by
    50, so a request for zero results gets the one stored contact; and
    surnames are ordered by [localeCompare], not by code units: under a
    collation that ranks letters before case, as that of every browser
    does, "bell" comes before "Cole", while in code-unit order every
    capital precedes every small letter. *)
Lemma searchContacts_blank_query_not_as_stated :
  (req_limit (blankRequest (Some 0) None) = Some 0 ∧
   @searchContacts lettersRuntime [johnDoe] (blankRequest (Some 0) None)
     = [johnDoe]) ∧
  (map surname
     (@searchContacts lettersRuntime [bobCole; annBell] (blankRequest None None))
     = ["bell"; "Cole"] ∧
   ¬ ordinalLe "bell" "Cole" ∧
   ¬ Sorted ordinalLe ["bell"; "Cole"]).
Proof.
  split_and!; try reflexivity.
  - unfold ordinalLe. vm_compute. discriminate.
  - intros Hs. apply Sorted_inv in Hs as [_ Hhd]. apply HdRel_inv in Hhd.
    revert Hhd. unfold ordinalLe. vm_compute. discriminate.
Qed.

(** C2, amended.  When the trimmed query is empty, [searchContacts]
    returns a page of the contacts that pass the filters, stably sorted
    by surname with the runtime's [localeCompare] as the order (not by
    code units): the sorted list is a rearrangement of the filtered one,
    which is the whole input when no filter is active, and is ascending
    for [localeCompare] whenever that comparator never ranks two of the
    surnames present each above the other.  The page is
    [slice(o, o + l)] with [o = offset || 0] and [l = limit || 50], so an
    absent or zero limit means 50; for [o] and [l] not negative it is the
    first [l] entries from position [o] on. *)
Theorem searchContacts_blank_query `{rt : Runtime} (cs : list Contact)
    (req : SearchContactsRequest)
    (Hblank : trim (req_query req) = EmptyString)
    (Hcmp : ∀ a b, a ∈ cs → b ∈ cs → 0 < bySurname a b → bySurname b a ≤ 0) :
  let o := orElse (req_offset req) 0 in
  let l := orElse (req_limit req) 50 in
  ∃ sorted,
    sorted = sort bySurname (applyFilters cs req) ∧
    sorted ≡ₚ applyFilters cs req ∧
    (∀ c, c ∈ sorted ↔ c ∈ cs ∧ passes req c) ∧
    (activeGroups req = None → favoritesOnly req = false → sorted ≡ₚ cs) ∧
    Sorted (λ a b, localeCompare (surname a) (surname b) ≤ 0) sorted ∧
    searchContacts cs req = slice o (o + l) sorted ∧
    (0 ≤ o → 0 ≤ l →
     searchContacts cs req = take (Z.to_nat l) (drop (Z.to_nat o) sorted)).
Proof.
  intros o l. exists (sort bySurname (applyFilters cs req)).
  assert (searchContacts cs req
          = slice o (o + l) (sort bySurname (applyFilters cs req))) as Hres.
  { unfold searchContacts. by rewrite Hblank. }
  split_and!.
  - done.
  - apply sort_perm.
  - intros c. rewrite sort_perm. apply elem_of_applyFilters.
  - intros Hg Hf. rewrite sort_perm. unfold applyFilters. by rewrite Hg, Hf.
  - apply (sort_sorted bySurname). intros a b Ha Hb.
    apply elem_of_applyFilters in Ha as [Ha _].
    apply elem_of_applyFilters in Hb as [Hb _]. by apply Hcmp.
  - done.
  - intros Ho Hl. rewrite Hres. by apply slice_page.
Qed.

Lemma searchContacts_blank_query_witness :
  trim (req_query (blankRequest None (Some 1))) = EmptyString ∧
  (∀ a b, a ∈ [bobCole; annBell; johnDoe] → b ∈ [bobCole; annBell; johnDoe] →
          0 < @bySurname lettersRuntime a b →
          @bySurname lettersRuntime b a ≤ 0) ∧
  @searchContacts lettersRuntime [bobCole; annBell; johnDoe]
    (blankRequest None (Some 1)) = [bobCole; johnDoe].
Proof.
  assert (∀ a b, a ∈ [bobCole; annBell; johnDoe] →
                 b ∈ [bobCole; annBell; johnDoe] →
                 0 < @bySurname lettersRuntime a b →
                 @bySurname lettersRuntime b a ≤ 0) as Hcmp.
  { intros a b Ha Hb.
    repeat (apply elem_of_cons in Ha as [->|Ha]);
      try (by apply elem_of_nil in Ha);
      repeat (apply elem_of_cons in Hb as [->|Hb]);
      try (by apply elem_of_nil in Hb);
      vm_compute; intros; discriminate. }
  split; [reflexivity|]. split; [exact Hcmp|].
  destruct (@searchContacts_blank_query lettersRuntime
              [bobCole; annBell; johnDoe] (blankRequest None (Some 1))
              eq_refl Hcmp) as (sorted & -> & _ & _ & _ & _ & Hres & _).
  rewrite Hres. reflexivity.
Defined.


(** A request for zero results over two stored contacts gets both. *)
Lemma limit_zero_returns_contacts :
  @searchContacts lettersRuntime [johnDoe; janeSmith]
    (mkRequest EmptyString None (Some 0) (Some 0)) = [johnDoe; janeSmith].
Proof. reflexivity. Qed.

(** ** The search stores and their deferred completions *)

Section Timers.
Context {rt : Runtime}.

Lemma fires_idle (n : nat) (st : SearchState) :
  Nat.iter n timerFires (mkWorld st []) = mkWorld st [].
Proof. induction n as [|n IH]; [done|]. by rewrite Nat.iter_succ, IH. Qed.

(** Firing more timers than are pending before [t] was queued leaves
    the results of [t], the last one queued, in the store. *)
Lemma fires_drain (ts : list SearchTask) (t : SearchTask) (st : SearchState)
    (n : nat) :
  (length ts < n)%nat →
  Nat.iter n timerFires (mkWorld st (ts ++ [t])) = mkWorld (complete t st) [].
Proof.
  revert st n. induction ts as [|t0 ts IH]; intros st n Hn.
  - destruct n as [|n]; [cbn in Hn; lia|].
    rewrite Nat.iter_succ_r. cbn [app timerFires timers search].
    by rewrite fires_idle.
  - destruct n as [|n]; [cbn in Hn; lia|].
    rewrite Nat.iter_succ_r. cbn [app timerFires timers search].
    rewrite IH by (cbn in Hn; lia). reflexivity.
Qed.

Lemma valtio_fires (n : nat) (w : SearchWorld) :
  ValtioSearch.run (replicate n ValtioSearch.TimerFires) w
  = Nat.iter n timerFires w.
Proof.
  revert w. induction n as [|n IH]; intros w; [done|].
  rewrite Nat.iter_succ_r. cbn. apply IH.
Qed.

Lemma zustand_fires (n : nat) (w : SearchWorld) :
  ZustandSearch.run (replicate n ZustandSearch.TimerFires) w
  = Nat.iter n timerFires w.
Proof.
  revert w. induction n as [|n IH]; intros w; [done|].
  rewrite Nat.iter_succ_r. cbn. apply IH.
Qed.

End Timers.

(** C9, as stated, fails in the Valtio store: a blank query clears the
    results at once, and the completion still pending for the query
    before it then stores that query's results.  With "John" typed and
    then erased within 100 ms, the store ends with an empty query, no
    timer pending, and the results computed for "John". *)
Lemma valtio_stale_results_overwrite :
  let cs := [johnDoe; janeSmith] in
  let w := @ValtioSearch.run lettersRuntime
             [ValtioSearch.SetQuery "John" cs;
              ValtioSearch.SetQuery EmptyString cs;
              ValtioSearch.TimerFires]
             (mkWorld initialSearch []) in
  query (search w) = EmptyString ∧
  timers w = [] ∧
  results (search w) = [johnDoe] ∧
  results (search w)
    = @ValtioSearch.resultsFor lettersRuntime "John" cs (filters (search w)) ∧
  @ValtioSearch.resultsFor lettersRuntime EmptyString cs (filters (search w))
    = [] ∧
  results (search w)
    ≠ @ValtioSearch.resultsFor lettersRuntime (query (search w)) cs
        (filters (search w)).
Proof.
  intros cs w.
  assert (results (search w) = [johnDoe]) as Hres by reflexivity.
  split_and!; try reflexivity.
  rewrite Hres. discriminate.
Qed.

(** C9, amended.  Neither store tags a search with its query; what
    orders the completions is that every search is deferred by the same
    delay, so they run in the order they were scheduled.  Whatever
    happened before (queries set, searches scheduled, timers fired or
    still pending), once a later query [q2] has been set and searched and
    the pending timers have all fired, the results are those computed
    for [q2] and nothing is pending: in the Zustand store for every
    [q2], in the Valtio store for every [q2] that is not blank. *)
Theorem later_query_wins `{rt : Runtime} (w : SearchWorld) (q2 : string)
    (cs : list Contact) (n : nat)
    (Hn : (length (timers w) < n)%nat) :
  let final :=
    mkWorld (mkSearch q2 (filters (search w))
                      (searchContacts cs (requestOf q2 (filters (search w))))
                      false) [] in
  ZustandSearch.run
    (ZustandSearch.SetQuery q2 :: ZustandSearch.SearchContacts cs
       :: replicate n ZustandSearch.TimerFires) w = final ∧
  (trim q2 ≠ EmptyString →
   ValtioSearch.run
     (ValtioSearch.SetQuery q2 cs :: replicate n ValtioSearch.TimerFires) w
   = final) ∧
  (∀ es, w = ZustandSearch.run es (mkWorld initialSearch []) →
         ZustandSearch.run
           (es ++ ZustandSearch.SetQuery q2 :: ZustandSearch.SearchContacts cs
               :: replicate n ZustandSearch.TimerFires)
           (mkWorld initialSearch []) = final).
Proof.
  intros final.
  assert (ZustandSearch.run
            (ZustandSearch.SetQuery q2 :: ZustandSearch.SearchContacts cs
               :: replicate n ZustandSearch.TimerFires) w = final) as Hz.
  { unfold ZustandSearch.run. cbn [fold_left ZustandSearch.step].
    fold (ZustandSearch.run (replicate n ZustandSearch.TimerFires)
            (ZustandSearch.searchContacts cs (ZustandSearch.setQuery q2 w))).
    rewrite zustand_fires. unfold ZustandSearch.searchContacts,
      ZustandSearch.setQuery. cbn [search timers query filters results].
    by rewrite fires_drain. }
  split_and!.
  - done.
  - intros Hq2. unfold ValtioSearch.run. cbn [fold_left ValtioSearch.step].
    fold (ValtioSearch.run (replicate n ValtioSearch.TimerFires)
            (ValtioSearch.setQuery q2 cs w)).
    rewrite valtio_fires. unfold ValtioSearch.setQuery,
      ValtioSearch.performSearch. cbn [search timers query filters results].
    destruct (trim q2) eqn:Ht; [done|]. cbn [notString].
    by rewrite fires_drain.
  - intros es ->. unfold ZustandSearch.run in *. by rewrite fold_left_app.
Qed.

Lemma later_query_wins_witness :
  (length (timers (@ValtioSearch.run lettersRuntime
                     [ValtioSearch.SetQuery "Jane" [johnDoe; janeSmith]]
                     (mkWorld initialSearch []))) < 2)%nat ∧
  results (search (@ValtioSearch.run lettersRuntime
     [ValtioSearch.SetQuery "Jane" [johnDoe; janeSmith];
      ValtioSearch.SetQuery "John" [johnDoe; janeSmith];
      ValtioSearch.TimerFires; ValtioSearch.TimerFires]
     (mkWorld initialSearch []))) = [johnDoe].
Proof.
  assert (length (timers (@ValtioSearch.run lettersRuntime
                     [ValtioSearch.SetQuery "Jane" [johnDoe; janeSmith]]
                     (mkWorld initialSearch []))) < 2)%nat as Hn.
  { vm_compute. lia. }
  split; [exact Hn|].
  destruct (@later_query_wins lettersRuntime _ "John" [johnDoe; janeSmith] 2 Hn)
    as (_ & Hv & _).
  change (@ValtioSearch.run lettersRuntime
     [ValtioSearch.SetQuery "Jane" [johnDoe; janeSmith];
      ValtioSearch.SetQuery "John" [johnDoe; janeSmith];
      ValtioSearch.TimerFires; ValtioSearch.TimerFires]
     (mkWorld initialSearch []))
    with (@ValtioSearch.run lettersRuntime
            (ValtioSearch.SetQuery "John" [johnDoe; janeSmith]
               :: replicate 2 ValtioSearch.TimerFires)
            (@ValtioSearch.run lettersRuntime
               [ValtioSearch.SetQuery "Jane" [johnDoe; janeSmith]]
               (mkWorld initialSearch []))).
  rewrite Hv; [reflexivity|discriminate].
Defined.

(** ** The concrete scenarios of the specification *)

Example scenario_toggle :
  let s1 := toggleFavorite "1" (addContact johnDoe initialState) in
  favorites s1 = ["1"] ∧
  isFavorite <$> contacts s1 !! "1" = Some true ∧
  favorites (toggleFavorite "1" s1) = [] ∧
  isFavorite <$> contacts (toggleFavorite "1" s1) !! "1" = Some false.
Proof. by split_and!. Qed.

Example scenario_setContacts :
  let s := setContacts [johnDoe; janeSmith] (addContact annBell initialState) in
  contacts s = <["2":=janeSmith]> (<["1":=johnDoe]> ∅) ∧
  favorites s = ["2"].
Proof. split; reflexivity. Qed.

Example scenario_deleteGroup :
  contact_groups <$>
    contacts (deleteGroup "g1"
                (addContact (sampleContact "7" "Cy" "Young" false ["g1"])
                            initialState)) !! "7"
  = Some [].
Proof. reflexivity. Qed.

Example scenario_update_missing :
  updateContact "missing-id"
    (mkPartial None None None None None (Some "Acme") None None None None
               None None)
    (addContact johnDoe initialState)
  = addContact johnDoe initialState.
Proof. reflexivity. Qed.

(** * Further properties of the stores *)

(** ** Invariants of the contact store *)



Lemma applyOp_NoDup (op : StoreOp) (s : ContactState) :
  distinctInput op → NoDup (favorites s) → NoDup (favorites (applyOp s op)).
Proof.
  intros Hop Hnd. destruct op as [cs|c|id u|id|id|gs|g|id u|id| |]; cbn [applyOp].
  - rewrite setContacts_spec. cbn [favorites].
    eapply sublist_NoDup; [exact Hop|].
    apply (fmap_sublist contact_id), sublist_filter.
  - unfold addContact. cbv zeta. cbn [favorites setContactsMap].
    destruct (isFavorite c), (includes (contact_id c) (favorites s)) eqn:Hin;
      cbn [andb negb favorites setFavorites setContactsMap]; try done.
    apply NoDup_push; [done|]. by apply includes_false.
  - unfold updateContact. destruct (contacts s !! id) as [c|]; [|done].
    cbv zeta. cbn [favorites setContactsMap].
    destruct (isFavorite (assign c u)), (includes id (favorites s)) eqn:Hin;
      cbn [andb negb favorites setFavorites setContactsMap]; try done.
    + apply NoDup_push; [done|]. by apply includes_false.
    + by apply NoDup_without.
  - cbn. by apply NoDup_without.
  - unfold toggleFavorite. destruct (contacts s !! id) as [c|]; [|done].
    cbv zeta. cbn [favorites setContactsMap isFavorite withFavorite].
    destruct (negb (isFavorite c)).
    + destruct (includes id (favorites s)) eqn:Hin;
        cbn [negb favorites setFavorites setContactsMap]; [done|].
      apply NoDup_push; [done|]. by apply includes_false.
    + cbn [favorites setFavorites setContactsMap]. by apply NoDup_without.
  - unfold setGroups. by rewrite setGroups_fold.
  - done.
  - unfold updateGroup. by destruct (groups s !! id).
  - done.
  - done.
  - constructor.
Qed.

(** X2.  The favorites list never holds an id twice: every call of the
    store keeps it duplicate-free, [setContacts] included as long as its
    input repeats no id. *)
Theorem favorites_never_duplicated (ops : list StoreOp)
    (Hops : Forall distinctInput ops) :
  NoDup (favorites (runOps ops initialState)).
Proof.
  unfold runOps.
  assert (NoDup (favorites initialState)) as Hnd by constructor.
  revert Hnd. generalize initialState.
  induction Hops as [|op ops Hop _ IH]; intros s Hnd; [done|].
  cbn [fold_left]. by apply IH, applyOp_NoDup.
Qed.

Lemma favorites_never_duplicated_witness :
  Forall distinctInput
    [SetContacts [johnDoe; janeSmith]; AddContact janeSmith;
     ToggleFavorite "1"; UpdateContact "1" markFavorite] ∧
  NoDup (favorites (runOps
    [SetContacts [johnDoe; janeSmith]; AddContact janeSmith;
     ToggleFavorite "1"; UpdateContact "1" markFavorite] initialState)).
Proof.
  assert (Forall distinctInput
    [SetContacts [johnDoe; janeSmith]; AddContact janeSmith;
     ToggleFavorite "1"; UpdateContact "1" markFavorite]) as H.
  { repeat constructor; cbn; try tauto.
    - intros Hin. apply list_elem_of_singleton in Hin. discriminate Hin.
    - apply not_elem_of_nil. }
  split; [exact H|]. exact (favorites_never_duplicated _ H).
Defined.

(** X3.  [updateContact] and [toggleFavorite] repair the favorites list
    at the id they touch: whatever the list held before, afterwards the
    id is listed exactly when the stored contact is a favorite. *)
Theorem update_and_toggle_reconcile (s : ContactState) (id : string)
    (u : PartialContact) (c : Contact) (Hc : contacts s !! id = Some c) :
  agreesAt id (updateContact id u s) ∧ agreesAt id (toggleFavorite id s).
Proof.
  assert (∀ c' favs',
    (id ∈ favs' ↔ isFavorite c' = true) →
    agreesAt id (setFavorites favs'
                   (setContactsMap (<[id:=c']> (contacts s)) s))) as Hgen.
  { intros c' favs' Hiff. unfold agreesAt. cbn. rewrite lookup_insert_eq, Hiff.
    split; [eauto|]. by intros (d & [= <-] & Hf). }
  split.
  - unfold updateContact. rewrite Hc. cbv zeta. cbn [favorites setContactsMap].
    destruct (isFavorite (assign c u)) eqn:Hf,
             (includes id (favorites s)) eqn:Hin; cbn [andb negb];
      [apply includes_true in Hin | apply includes_false in Hin
      |apply includes_true in Hin | apply includes_false in Hin];
      expose_favorites; apply Hgen; rewrite Hf;
      rewrite ?elem_of_push, ?elem_of_without; intuition congruence.
  - unfold toggleFavorite. rewrite Hc. cbv zeta.
    cbn [favorites setContactsMap isFavorite withFavorite].
    destruct (negb (isFavorite c)) eqn:Hf;
      [destruct (includes id (favorites s)) eqn:Hin; cbn [negb];
       [apply includes_true in Hin | apply includes_false in Hin] |];
      expose_favorites; apply Hgen; cbn [isFavorite withFavorite];
      rewrite ?elem_of_push, ?elem_of_without; intuition congruence.
Qed.

Lemma update_and_toggle_reconcile_witness :
  contacts (addContact johnDoe (addContact johnDoeFavorite initialState)) !! "1"
    = Some johnDoe ∧
  agreesAt "1"
    (updateContact "1" emptyPartial
       (addContact johnDoe (addContact johnDoeFavorite initialState))).
Proof.
  split; [reflexivity|].
  exact (proj1 (update_and_toggle_reconcile
                  (addContact johnDoe (addContact johnDoeFavorite initialState))
                  "1" emptyPartial johnDoe eq_refl)).
Defined.

(** X4.  [deleteContact] removes the id from the map and every
    occurrence of it from the favorites list, touches no other contact,
    no other favorite and no group, and deleting again changes nothing
    more. *)
Theorem deleteContact_removes_only_id (s : ContactState) (id : string) :
  contacts (deleteContact id s) !! id = None ∧
  (id ∉ favorites (deleteContact id s)) ∧
  (∀ k, k ≠ id →
        contacts (deleteContact id s) !! k = contacts s !! k ∧
        (k ∈ favorites (deleteContact id s) ↔ k ∈ favorites s)) ∧
  favorites (deleteContact id s) `sublist_of` favorites s ∧
  groups (deleteContact id s) = groups s ∧
  deleteContact id (deleteContact id s) = deleteContact id s.
Proof.
  unfold deleteContact. cbn [contacts favorites groups setFavorites setContactsMap].
  split_and!.
  - apply lookup_delete_eq.
  - rewrite elem_of_without. tauto.
  - intros k Hk. split; [by apply lookup_delete_ne|].
    rewrite elem_of_without. tauto.
  - apply sublist_filter.
  - done.
  - unfold setFavorites, setContactsMap. cbn. f_equal.
    + apply delete_id, lookup_delete_eq.
    + apply without_absent. rewrite elem_of_without. tauto.
Qed.

Lemma without_push_absent (x : string) (xs : list string) :
  x ∉ xs → without x (push x xs) = xs.
Proof.
  intros Hx. unfold without, push. rewrite filter_app.
  fold (without x xs). rewrite without_absent by done.
  rewrite filter_cons_False, filter_nil by tauto. apply app_nil_r.
Qed.

(** X5.  Adding a contact under an id the store neither holds nor lists
    and deleting that id again gives back the store; in between the
    contact is found under its id, and it is listed exactly when it is a
    favorite. *)
Theorem add_then_delete_restores (s : ContactState) (c : Contact)
    (Hnew : contacts s !! contact_id c = None)
    (Hunlisted : contact_id c ∉ favorites s) :
  contacts (addContact c s) !! contact_id c = Some c ∧
  (contact_id c ∈ favorites (addContact c s) ↔ isFavorite c = true) ∧
  deleteContact (contact_id c) (addContact c s) = s.
Proof.
  unfold addContact. cbv zeta. cbn [favorites setContactsMap].
  assert (includes (contact_id c) (favorites s) = false) as ->
    by by apply includes_false.
  destruct (isFavorite c); cbn [andb negb].
  - split_and!.
    + apply lookup_insert_eq.
    + cbn. rewrite elem_of_push. tauto.
    + unfold deleteContact, setFavorites, setContactsMap.
      cbn [contacts groups favorites loading error].
      rewrite delete_insert_id, without_push_absent by done. by destruct s.
  - split_and!.
    + apply lookup_insert_eq.
    + cbn. split; [tauto|done].
    + unfold deleteContact, setFavorites, setContactsMap.
      cbn [contacts groups favorites loading error].
      rewrite delete_insert_id, without_absent by done. by destruct s.
Qed.

Lemma add_then_delete_restores_witness :
  contacts (addContact johnDoe initialState) !! contact_id janeSmith = None ∧
  (contact_id janeSmith ∉ favorites (addContact johnDoe initialState)) ∧
  deleteContact (contact_id janeSmith)
    (addContact janeSmith (addContact johnDoe initialState))
  = addContact johnDoe initialState.
Proof.
  assert (contact_id janeSmith ∉ favorites (addContact johnDoe initialState))
    as H by apply not_elem_of_nil.
  split; [reflexivity|]. split; [exact H|].
  destruct (add_then_delete_restores (addContact johnDoe initialState)
              janeSmith eq_refl H) as (_ & _ & Hr).
  exact Hr.
Defined.




(** ** Groups *)

Lemma lastGroup_fold (gs : list ContactGroup) (m : gmap string ContactGroup)
    (k : string) :
  fold_left (λ acc g, <[group_id g := g]> acc) gs m !! k =
  match last (filter (λ g, group_id g = k) gs) with
  | Some g => Some g
  | None => m !! k
  end.
Proof.
  induction gs as [|g gs IH] using rev_ind; [done|].
  rewrite fold_left_app, filter_app. cbn [fold_left].
  destruct (decide (group_id g = k)) as [Hk|Hk].
  - rewrite filter_cons_True, filter_nil by done.
    rewrite last_snoc. subst k. by rewrite lookup_insert_eq.
  - rewrite filter_cons_False, filter_nil, app_nil_r by done.
    by rewrite lookup_insert_ne.
Qed.

(** X7.  [setGroups] replaces the group map: afterwards an id maps to the
    last input group carrying it and to nothing when no input group
    carries it, whatever groups were stored before; contacts, favorites,
    loading flag and error are untouched.  [setGroups] of the RxJS store
    builds the same store. *)
Theorem setGroups_replaces (gs : list ContactGroup) (s : ContactState) :
  (∀ k, groups (setGroups gs s) !! k
        = last (filter (λ g, group_id g = k) gs)) ∧
  (∀ k, (∀ g, g ∈ gs → group_id g ≠ k) → groups (setGroups gs s) !! k = None) ∧
  contacts (setGroups gs s) = contacts s ∧
  favorites (setGroups gs s) = favorites s ∧
  loading (setGroups gs s) = loading s ∧
  error (setGroups gs s) = error s ∧
  Rx.setGroups gs s = setGroups gs s.
Proof.
  assert (∀ k, groups (setGroups gs s) !! k
               = last (filter (λ g, group_id g = k) gs)) as Hlook.
  { intros k. unfold setGroups. rewrite setGroups_fold. cbn.
    rewrite lastGroup_fold, lookup_empty. by destruct (last _). }
  unfold setGroups. rewrite setGroups_fold. split_and!; try done.
  - intros k. specialize (Hlook k). unfold setGroups in Hlook.
    by rewrite setGroups_fold in Hlook.
  - intros k Hk. specialize (Hlook k). unfold setGroups in Hlook.
    rewrite setGroups_fold in Hlook. rewrite Hlook.
    destruct (last _) as [g|] eqn:Hl; [|done].
    apply last_Some_elem_of, list_elem_of_filter in Hl as [Hid Hg].
    by destruct (Hk g Hg).
Qed.

(** X8.  [updateGroup] never adds or removes a group id: on an id the map
    does not hold it returns the store as it was, and on a stored id it
    replaces that one group by its merge with the update and leaves every
    other group, every contact and the favorites list alone. *)
Theorem updateGroup_keeps_ids (id : string) (u : PartialGroup) (s : ContactState) :
  dom (groups (updateGroup id u s)) = dom (groups s) ∧
  (groups s !! id = None → updateGroup id u s = s) ∧
  (∀ g, groups s !! id = Some g →
        groups (updateGroup id u s) !! id = Some (assignGroup g u)) ∧
  (∀ k, k ≠ id → groups (updateGroup id u s) !! k = groups s !! k) ∧
  contacts (updateGroup id u s) = contacts s ∧
  favorites (updateGroup id u s) = favorites s.
Proof.
  unfold updateGroup. destruct (groups s !! id) as [g|] eqn:Hg; cbn.
  - split_and!; try done.
    + rewrite dom_insert_L. apply subseteq_union_1_L, singleton_subseteq_l.
      by apply elem_of_dom_2 in Hg.
    + intros g' [= <-]. apply lookup_insert_eq.
    + intros k Hk. by apply lookup_insert_ne.
  - split_and!; done.
Qed.

Lemma without_without (x y : string) (xs : list string) :
  without x (without y xs) = without y (without x xs).
Proof.
  unfold without. rewrite !list_filter_filter. apply list_filter_iff.
  intros z. tauto.
Qed.

Lemma without_idemp (x : string) (xs : list string) :
  without x (without x xs) = without x xs.
Proof. apply without_absent. rewrite elem_of_without. tauto. Qed.

(** X9.  Deleting a group twice is deleting it once, and two groups can
    be deleted in either order: the resulting store is the same. *)
Theorem deleteGroup_idempotent_commutes (g h : string) (s : ContactState) :
  deleteGroup g (deleteGroup g s) = deleteGroup g s ∧
  deleteGroup g (deleteGroup h s) = deleteGroup h (deleteGroup g s).
Proof.
  unfold deleteGroup, setContactsMap, setGroupsMap.
  cbn [contacts groups favorites loading error]. split; f_equal.
  - rewrite <- map_fmap_compose. apply map_fmap_ext. intros k c _.
    unfold compose, withGroups.
    cbn [contact_id contact_name phones emails address company notes avatar
         contact_groups isFavorite createdAt updatedAt].
    by rewrite without_idemp.
  - apply delete_id, lookup_delete_eq.
  - rewrite <- !map_fmap_compose. apply map_fmap_ext. intros k c _.
    unfold compose, withGroups.
    cbn [contact_id contact_name phones emails address company notes avatar
         contact_groups isFavorite createdAt updatedAt].
    by rewrite without_without.
  - apply delete_delete.
Qed.

Lemma withGroups_same_list (c : Contact) : withGroups (contact_groups c) c = c.
Proof. by destruct c. Qed.

(** X10.  Deleting a group id that is not in the group map and that no
    stored contact lists leaves the store exactly as it was. *)
Theorem deleteGroup_unused (g : string) (s : ContactState)
    (Hmap : groups s !! g = None)
    (Hfree : ∀ k c, contacts s !! k = Some c → g ∉ contact_groups c) :
  deleteGroup g s = s.
Proof.
  unfold deleteGroup, setContactsMap, setGroupsMap.
  cbn [contacts groups favorites loading error].
  rewrite delete_id by done.
  assert ((λ c, withGroups (without g (contact_groups c)) c) <$> contacts s
          = contacts s) as ->.
  { rewrite <- (map_fmap_id (contacts s)) at 2.
    apply map_fmap_ext. intros k c Hc.
    rewrite without_absent by (by eapply Hfree). apply withGroups_same_list. }
  by destruct s.
Qed.

Lemma deleteGroup_unused_witness :
  groups (addContact janeSmith initialState) !! "family" = None ∧
  deleteGroup "family" (addContact janeSmith initialState)
    = addContact janeSmith initialState.
Proof.
  split; [reflexivity|].
  apply deleteGroup_unused; [reflexivity|].
  intros k c Hc.
  change (contacts (addContact janeSmith initialState))
    with (<["2":=janeSmith]> (∅ : gmap string Contact)) in Hc.
  apply lookup_insert_Some in Hc as [[_ <-]|[_ Hc]].
  - intros Hin. apply list_elem_of_singleton in Hin. discriminate Hin.
  - rewrite lookup_empty in Hc. discriminate Hc.
Defined.

(** ** The gateway when the remote call succeeds *)

(** X11.  After a fetch that succeeds the store holds exactly the fetched
    contacts (the last one for an id given twice) and the favorites
    rebuilt from them, the loading flag is off and an error left by an
    earlier call is cleared; groups are untouched and nothing is raised.
    After a fetch that fails contacts and favorites are what they
    were. *)
Theorem fetchContacts_outcomes (api : Api) (s : ContactState) :
  (∀ data, getContacts api = Fulfilled data →
     fetchContacts api s =
       (mkState (lastWins data) (groups s)
                (map contact_id (filter (λ c, isFavorite c = true) data))
                false None,
        Fulfilled tt) ∧
     (∀ k, contacts (fetchContacts api s).1 !! k
           = last (filter (λ c, contact_id c = k) data))) ∧
  (∀ e, getContacts api = Rejected e →
     contacts (fetchContacts api s).1 = contacts s ∧
     favorites (fetchContacts api s).1 = favorites s ∧
     loading (fetchContacts api s).1 = false).
Proof.
  split.
  - intros data Hd. unfold fetchContacts, fetchContactsSettle. rewrite Hd.
    rewrite setContacts_spec. cbn. split; [done|]. apply lastWins_lookup.
  - intros e He. unfold fetchContacts, fetchContactsSettle. by rewrite He.
Qed.

Lemma fetchContacts_outcomes_witness :
  fetchContacts (echoApi [johnDoe; janeSmith])
    (mkState ∅ ∅ ["ghost"] true (Some "Network Error"%string))
  = (mkState (<["2":=janeSmith]> (<["1":=johnDoe]> ∅)) ∅ ["2"] false None,
     Fulfilled tt).
Proof.
  destruct (fetchContacts_outcomes (echoApi [johnDoe; janeSmith])
              (mkState ∅ ∅ ["ghost"] true (Some "Network Error"%string)))
    as [H _].
  destruct (H [johnDoe; janeSmith] eq_refl) as [Heq _].
  rewrite Heq. reflexivity.
Defined.



(** ** Pages of search results *)

Lemma slice_sublist {A} (a b : Z) (xs : list A) : slice a b xs `sublist_of` xs.
Proof. unfold slice. etrans; [apply sublist_take|apply sublist_drop]. Qed.

Lemma slice_length {A} (o l : Z) (xs : list A) :
  0 ≤ l → (length (slice o (o + l) xs) ≤ Z.to_nat l)%nat.
Proof.
  intros Hl. unfold slice, relativeIndex. rewrite length_take.
  destruct (Z.ltb_spec o 0), (Z.ltb_spec (o + l) 0); lia.
Qed.

Lemma slice_nil {A} (a b : Z) : slice a b (@nil A) = [].
Proof. unfold slice. by rewrite drop_nil, take_nil. Qed.

(** X13.  Whatever the query, filters, offset and limit, and whatever
    ranking the fuzzy matcher returns among its candidates, every contact
    [searchContacts] returns is one of the contacts it was given and
    passes the filters, the page holds at most [limit || 50] contacts
    when that number is not negative, and an empty contact list gives an
    empty result. *)
Theorem searchContacts_page_bounds `{rt : Runtime} (cs : list Contact)
    (req : SearchContactsRequest)
    (Hfuse : ∀ xs q c, c ∈ fuseSearch xs q → c ∈ xs) :
  (∀ c, c ∈ searchContacts cs req → c ∈ cs ∧ passes req c) ∧
  (0 ≤ orElse (req_limit req) 50 →
   (length (searchContacts cs req) ≤ Z.to_nat (orElse (req_limit req) 50))%nat) ∧
  searchContacts [] req = [].
Proof.
  split_and!.
  - intros c Hc. apply elem_of_applyFilters. unfold searchContacts in Hc.
    destruct (notString (trim (req_query req)));
      apply (λ H, elem_of_sublist _ _ _ H (slice_sublist _ _ _)) in Hc.
    + by rewrite sort_perm in Hc.
    + by apply Hfuse in Hc.
  - intros Hl. unfold searchContacts.
    destruct (notString (trim (req_query req))); by apply slice_length.
  - unfold searchContacts.
    assert (applyFilters [] req = []) as ->.
    { apply sublist_nil_r, applyFilters_sublist. }
    destruct (notString (trim (req_query req))); [apply slice_nil|].
    destruct (fuseSearch [] (req_query req)) as [|c l] eqn:Hf; [apply slice_nil|].
    assert (c ∈ @nil Contact) as Hc
      by (apply (Hfuse [] (req_query req)); rewrite Hf; apply list_elem_of_here).
    by apply elem_of_nil in Hc.
Qed.

Lemma searchContacts_page_bounds_witness :
  (∀ xs q c, c ∈ @fuseSearch lettersRuntime xs q → c ∈ xs) ∧
  (length (@searchContacts lettersRuntime [johnDoe; janeSmith; annBell]
             (mkRequest "John" None (Some 2%Z) None)) ≤ 2)%nat.
Proof.
  assert (∀ xs q c, c ∈ @fuseSearch lettersRuntime xs q → c ∈ xs) as Hfuse.
  { intros xs q c Hc. cbn in Hc. unfold exactNameSearch in Hc.
    by apply list_elem_of_filter in Hc as [_ Hc]. }
  split; [exact Hfuse|].
  destruct (@searchContacts_page_bounds lettersRuntime
              [johnDoe; janeSmith; annBell]
              (mkRequest "John" None (Some 2) None) Hfuse) as (_ & Hlen & _).
  apply Hlen. cbn. lia.
Defined.

(** ** Search by phone number and by group *)

Lemma startsWith_spec (s sub : string) :
  startsWith s sub = true ↔ ∃ post, s = (sub ++ post)%string.
Proof.
  revert s. induction sub as [|b sub IH]; intros s.
  - split; [intros _; by exists s|]. intros _. by destruct s.
  - destruct s as [|a s]; cbn.
    + split; [done|]. by intros (post & Hp).
    + rewrite andb_true_iff, Ascii.eqb_eq, IH. split.
      * intros (-> & post & ->). by exists post.
      * intros (post & [= -> ->]). eauto.
Qed.

Lemma stringIncludes_spec (s sub : string) :
  stringIncludes s sub = true ↔ ∃ pre post, s = (pre ++ sub ++ post)%string.
Proof.
  induction s as [|a s IH].
  - cbn [stringIncludes]. rewrite orb_false_r, startsWith_spec. split.
    + intros (post & Hp). by exists EmptyString, post.
    + intros (pre & post & Hp). destruct pre; [by exists post|done].
  - cbn [stringIncludes]. rewrite orb_true_iff, startsWith_spec, IH. split.
    + intros [(post & Hp)|(pre & post & ->)].
      * by exists EmptyString, post.
      * by exists (String a pre), post.
    + intros (pre & post & Hp). destruct pre as [|a' pre].
      * left. by exists post.
      * right. injection Hp as -> ->. by exists pre, post.
Qed.

(** X14.  [phoneticSearch] returns, in their input order, exactly the
    contacts with a phone number whose digits contain the digits of the
    query as one run; characters other than digits play no part, so two
    queries with the same digits give the same result. *)
Theorem phoneticSearch_matches (cs : list Contact) (q : string) :
  (∀ c, c ∈ phoneticSearch cs q ↔
        c ∈ cs ∧ ∃ p pre post,
          p ∈ phones c ∧
          digitsOf (phone_number p) = (pre ++ digitsOf q ++ post)%string) ∧
  phoneticSearch cs q `sublist_of` cs ∧
  (∀ q', digitsOf q' = digitsOf q → phoneticSearch cs q' = phoneticSearch cs q).
Proof.
  split_and!.
  - intros c. unfold phoneticSearch. rewrite list_elem_of_filter, existsb_exists.
    split.
    + intros [(p & Hp & Hm) Hc]. split; [done|].
      apply stringIncludes_spec in Hm as (pre & post & Hm).
      exists p, pre, post. split; [by apply list_elem_of_In|done].
    + intros [Hc (p & pre & post & Hp & Hm)]. split; [|done].
      exists p. split; [by apply list_elem_of_In|].
      apply stringIncludes_spec. eauto.
  - apply sublist_filter.
  - intros q' Hq. unfold phoneticSearch. by rewrite Hq.
Qed.

Lemma stringIncludes_empty (s : string) : stringIncludes s EmptyString = true.
Proof. by destruct s. Qed.

(** X15.  A query without a digit, the empty query included, matches
    every phone number: [phoneticSearch] then returns every contact that
    has at least one phone and no contact without phones. *)
Theorem phoneticSearch_without_digits (cs : list Contact) (q : string)
    (Hq : digitsOf q = EmptyString) :
  phoneticSearch cs q = filter (λ c, phones c ≠ []) cs.
Proof.
  unfold phoneticSearch. rewrite Hq. apply list_filter_iff. intros c.
  destruct (phones c) as [|p ps]; cbn.
  - split; [discriminate|done].
  - unfold phoneMatches at 1. rewrite stringIncludes_empty. cbn. split; done.
Qed.

Lemma phoneticSearch_without_digits_witness :
  digitsOf "Doe, John" = EmptyString ∧
  phoneticSearch [johnDoe; noPhone; janeSmith] "Doe, John"
    = [johnDoe; janeSmith].
Proof.
  split; [reflexivity|].
  rewrite (phoneticSearch_without_digits _ "Doe, John" eq_refl). reflexivity.
Defined.

Lemma elem_of_objectValues {A} (m : gmap string A) (x : A) :
  x ∈ objectValues m ↔ ∃ k, m !! k = Some x.
Proof.
  unfold objectValues. rewrite list_elem_of_fmap. split.
  - intros ([k y] & -> & Hky). exists k. by apply elem_of_map_to_list.
  - intros (k & Hk). exists (k, x). split; [done|]. by apply elem_of_map_to_list.
Qed.

(** X16.  A group filter naming one group selects what [groupSearch]
    selects for that group: the contacts that list the group, in their
    input order.  The group lookups of the stores ([getContactsByGroup],
    [selectContactsByGroup]) are this search over the stored contacts. *)
Theorem single_group_filter_is_groupSearch (cs : list Contact) (g q : string)
    (fav : option bool) (limit offset : option Z) (s : ContactState) :
  (fav = None ∨ fav = Some false →
   applyFilters cs (mkRequest q (Some (mkRequestFilters (Some [g]) fav))
                              limit offset)
   = groupSearch cs g) ∧
  (∀ c, c ∈ groupSearch cs g ↔ c ∈ cs ∧ g ∈ contact_groups c) ∧
  groupSearch cs g `sublist_of` cs ∧
  getContactsByGroup g s = groupSearch (contactList s) g ∧
  (∀ c, c ∈ getContactsByGroup g s ↔
        ∃ k, contacts s !! k = Some c ∧ g ∈ contact_groups c).
Proof.
  assert (∀ xs c, c ∈ groupSearch xs g ↔ c ∈ xs ∧ g ∈ contact_groups c) as Hmem.
  { intros xs c. unfold groupSearch. rewrite list_elem_of_filter, includes_true.
    tauto. }
  split_and!; try done.
  - intros Hfav. unfold applyFilters, groupSearch.
    assert (favoritesOnly (mkRequest q (Some (mkRequestFilters (Some [g]) fav))
                                     limit offset) = false) as ->
      by by destruct Hfav as [-> | ->].
    cbn [activeGroups req_filters rf_groups]. apply list_filter_iff. intros c.
    rewrite inSomeGroup_true, includes_true. split.
    + intros (h & Hh & Hg). apply list_elem_of_singleton in Hg. by subst.
    + intros Hg. exists g. split; [done|]. by apply list_elem_of_singleton.
  - apply sublist_filter.
  - intros c. change (getContactsByGroup g s) with (groupSearch (contactList s) g).
    rewrite Hmem. unfold contactList. rewrite elem_of_objectValues.
    split; [intros [(k & Hk) Hg]|intros (k & Hk & Hg)]; eauto.
Qed.

(** X17.  Once a group has been deleted, looking contacts up by that
    group finds none. *)
Theorem deleted_group_has_no_contacts (g : string) (s : ContactState) (c : Contact) :
  (c ∉ getContactsByGroup g (deleteGroup g s)) ∧
  getContactsByGroup g (deleteGroup g s) = [].
Proof.
  assert (∀ d, d ∉ getContactsByGroup g (deleteGroup g s)) as Hnone.
  { intros d Hd. unfold getContactsByGroup in Hd.
    apply list_elem_of_filter in Hd as [Hg Hd]. apply includes_true in Hg.
    unfold contactList in Hd. apply elem_of_objectValues in Hd as (k & Hk).
    unfold deleteGroup in Hk. cbn [contacts setContactsMap setGroupsMap] in Hk.
    rewrite lookup_fmap in Hk.
    destruct (contacts s !! k) as [d0|]; [|done]. cbn in Hk.
    injection Hk as <-. cbn [contact_groups withGroups] in Hg.
    apply elem_of_without in Hg. tauto. }
  split; [apply Hnone|]. by apply elem_of_nil_inv.
Qed.

(** ** Editing the search filters *)

(** X18.  [addGroupFilter] puts the group in the filter without ever
    listing it twice, so adding it again changes nothing;
    [removeGroupFilter] leaves no occurrence of it and undoes an
    [addGroupFilter] of a group that was not in the filter;
    [toggleFavoritesFilter] twice gives back the state.  None of them
    touches the query or the results. *)
Theorem filter_edits (st : SearchState) (g : string) :
  g ∈ sf_groups (filters (addGroupFilter g st)) ∧
  (NoDup (sf_groups (filters st)) →
   NoDup (sf_groups (filters (addGroupFilter g st)))) ∧
  addGroupFilter g (addGroupFilter g st) = addGroupFilter g st ∧
  (g ∉ sf_groups (filters (removeGroupFilter g st))) ∧
  (g ∉ sf_groups (filters st) → removeGroupFilter g (addGroupFilter g st) = st) ∧
  toggleFavoritesFilter (toggleFavoritesFilter st) = st ∧
  (query (addGroupFilter g st) = query st ∧
   results (addGroupFilter g st) = results st) ∧
  (query (removeGroupFilter g st) = query st ∧
   results (removeGroupFilter g st) = results st).
Proof.
  destruct st as [q [gs fav pt et] res srch].
  unfold addGroupFilter, removeGroupFilter, toggleFavoritesFilter,
    withFilterGroups.
  cbn [query filters results isSearching sf_groups sf_favorites sf_phoneType
       sf_emailType].
  destruct (includes g gs) eqn:Hin; cbn [negb];
    cbn [query filters results isSearching sf_groups sf_favorites sf_phoneType
         sf_emailType].
  - apply includes_true in Hin. rewrite (proj2 (includes_true g gs) Hin).
    cbn [negb]. split_and!; try done.
    + rewrite elem_of_without. tauto.
    + by rewrite negb_involutive.
  - apply includes_false in Hin.
    assert (includes g (push g gs) = true) as ->
      by (apply includes_true, elem_of_push; tauto).
    cbn [negb]. split_and!; try done.
    + apply elem_of_push. tauto.
    + intros Hnd. by apply NoDup_push.
    + rewrite elem_of_without. tauto.
    + intros _. by rewrite without_push_absent.
    + by rewrite negb_involutive.
Qed.

(** ** Clearing the search while a search is pending *)

Lemma fires_keep_query `{rt : Runtime} (n : nat) (w : SearchWorld) :
  query (search (Nat.iter n timerFires w)) = query (search w) ∧
  filters (search (Nat.iter n timerFires w)) = filters (search w).
Proof.
  induction n as [|n IH]; [done|]. rewrite Nat.iter_succ.
  destruct IH as [<- <-]. generalize (Nat.iter n timerFires w). intros v.
  unfold timerFires. by destruct (timers v).
Qed.

(** X19.  [clearSearch] empties the query, the filters and the results
    but cancels no timer: when a search is still pending, its completion
    stores its results afterwards, so once the timers have fired the
    store holds an empty query together with the results of the last
    search scheduled before the clearing. *)
Theorem clearSearch_keeps_pending_search `{rt : Runtime} (w : SearchWorld)
    (ts : list SearchTask) (t : SearchTask) (n : nat)
    (Hpending : timers w = ts ++ [t]) (Hn : (length ts < n)%nat) :
  results (search (clearSearchWorld w)) = [] ∧
  let w' := Nat.iter n timerFires (clearSearchWorld w) in
  query (search w') = EmptyString ∧
  filters (search w') = mkFilters [] false None None ∧
  results (search w')
    = searchContacts (task_contacts t)
                     (requestOf (task_query t) (task_filters t)) ∧
  timers w' = [].
Proof.
  split; [done|]. intros w'. subst w'. unfold clearSearchWorld.
  rewrite Hpending, fires_drain by done. done.
Qed.

Lemma clearSearch_keeps_pending_search_witness :
  timers (ZustandSearch.searchContacts [johnDoe; janeSmith]
            (ZustandSearch.setQuery "John" (mkWorld initialSearch [])))
    = [] ++ [mkTask [johnDoe; janeSmith] "John" (mkFilters [] false None None)] ∧
  (length (@nil SearchTask) < 1)%nat ∧
  results (search (Nat.iter 1 (@timerFires lettersRuntime)
     (clearSearchWorld
        (ZustandSearch.searchContacts [johnDoe; janeSmith]
           (ZustandSearch.setQuery "John" (mkWorld initialSearch []))))))
    = [johnDoe].
Proof.
  assert (length (@nil SearchTask) < 1)%nat as Hn by (cbn; lia).
  split; [reflexivity|]. split; [exact Hn|].
  destruct (@clearSearch_keeps_pending_search lettersRuntime
              (ZustandSearch.searchContacts [johnDoe; janeSmith]
                 (ZustandSearch.setQuery "John" (mkWorld initialSearch [])))
              [] (mkTask [johnDoe; janeSmith] "John"
                         (mkFilters [] false None None)) 1 eq_refl Hn)
    as (_ & _ & _ & Hres & _).
  rewrite Hres. reflexivity.
Defined.

(** X20.  A completion never changes the query, so while the query is
    blank the displayed list is the full contact list, whatever results
    a late completion has stored. *)
Theorem blank_query_displays_all `{rt : Runtime} (w : SearchWorld) (n : nat)
    (all : list Contact)
    (Hblank : trim (query (search w)) = EmptyString) :
  query (search (Nat.iter n timerFires w)) = query (search w) ∧
  displayContacts (search (Nat.iter n timerFires w)) all = all.
Proof.
  destruct (fires_keep_query n w) as [Hq _]. split; [done|].
  unfold displayContacts. by rewrite Hq, Hblank.
Qed.

Lemma blank_query_displays_all_witness :
  trim (query (search (@ValtioSearch.run lettersRuntime
     [ValtioSearch.SetQuery "John" [johnDoe; janeSmith];
      ValtioSearch.SetQuery EmptyString [johnDoe; janeSmith]]
     (mkWorld initialSearch [])))) = EmptyString ∧
  displayContacts
    (search (Nat.iter 1 (@timerFires lettersRuntime)
       (@ValtioSearch.run lettersRuntime
          [ValtioSearch.SetQuery "John" [johnDoe; janeSmith];
           ValtioSearch.SetQuery EmptyString [johnDoe; janeSmith]]
          (mkWorld initialSearch []))))
    [johnDoe; janeSmith]
  = [johnDoe; janeSmith].
Proof.
  split; [reflexivity|].
  exact (proj2 (@blank_query_displays_all lettersRuntime
                  (@ValtioSearch.run lettersRuntime
                     [ValtioSearch.SetQuery "John" [johnDoe; janeSmith];
                      ValtioSearch.SetQuery EmptyString [johnDoe; janeSmith]]
                     (mkWorld initialSearch []))
                  1 [johnDoe; janeSmith] eq_refl)).
Defined.

(** ** The derived list of favorite contacts *)





(** ** The RxJS store against the Zustand store *)


(** ** The Redux contacts slice *)

Lemma bulkDelete_fold {H} (ids : list string) (s : Redux.ContactsState H) :
  Redux.bulkDelete ids s =
  Redux.mkContactsState
    (fold_left (λ m k, delete k m) ids (Redux.r_contacts s))
    (Redux.r_groups s) (Redux.r_callHistory s)
    (fold_left (λ f k, without k f) ids (Redux.r_favorites s))
    (Redux.r_loading s) (Redux.r_error s) (Redux.r_lastSync s).
Proof.
  unfold Redux.bulkDelete. revert s.
  induction ids as [|i ids IH]; intros s; [by destruct s|].
  cbn [fold_left]. by rewrite IH.
Qed.

Lemma fold_delete_lookup (ids : list string) (m : gmap string Contact)
    (k : string) :
  fold_left (λ m k, delete k m) ids m !! k
  = if decide (k ∈ ids) then None else m !! k.
Proof.
  revert m. induction ids as [|i ids IH]; intros m; [done|].
  cbn [fold_left]. rewrite IH.
  destruct (decide (k ∈ ids)) as [Hin|Hout].
  - rewrite decide_True; [done|]. by right.
  - destruct (decide (k = i)) as [->|Hne].
    + rewrite decide_True by left. apply lookup_delete_eq.
    + rewrite decide_False by (rewrite elem_of_cons; tauto).
      by apply lookup_delete_ne.
Qed.

Lemma fold_without (ids : list string) (f : list string) :
  fold_left (λ f k, without k f) ids f = filter (λ x, x ∉ ids) f.
Proof.
  revert f. induction ids as [|i ids IH]; intros f.
  - cbn [fold_left]. induction f as [|x f IH]; [done|].
    rewrite filter_cons_True by apply not_elem_of_nil. by rewrite <- IH.
  - cbn [fold_left]. rewrite IH. unfold without. rewrite list_filter_filter.
    apply list_filter_iff. intros x. rewrite not_elem_of_cons. tauto.
Qed.

(** X23.  [bulkDelete] removes exactly the listed ids: afterwards none of
    them is a key of the map or an entry of the favorites list, every
    other contact and favorite is as before, groups and call history are
    untouched, and the order and repetition of the ids do not matter. *)
Theorem bulkDelete_removes_listed {H} (ids : list string)
    (s : Redux.ContactsState H) :
  (∀ k, Redux.r_contacts (Redux.bulkDelete ids s) !! k
        = if decide (k ∈ ids) then None else Redux.r_contacts s !! k) ∧
  Redux.r_favorites (Redux.bulkDelete ids s)
    = filter (λ x, x ∉ ids) (Redux.r_favorites s) ∧
  Redux.r_groups (Redux.bulkDelete ids s) = Redux.r_groups s ∧
  Redux.r_callHistory (Redux.bulkDelete ids s) = Redux.r_callHistory s ∧
  Redux.bulkDelete [] s = s ∧
  (∀ ids', (∀ k, k ∈ ids' ↔ k ∈ ids) →
           Redux.bulkDelete ids' s = Redux.bulkDelete ids s).
Proof.
  rewrite bulkDelete_fold. cbn. split_and!; try done.
  - intros k. apply fold_delete_lookup.
  - apply fold_without.
  - intros ids' Hsame. rewrite bulkDelete_fold. f_equal.
    + apply map_eq. intros k. rewrite !fold_delete_lookup.
      destruct (decide (k ∈ ids')) as [Hk|Hk], (decide (k ∈ ids)) as [Hk'|Hk'];
        try done; exfalso; apply Hsame in Hk || apply Hsame in Hk'; tauto.
    + rewrite !fold_without. apply list_filter_iff. intros x.
      by rewrite Hsame.
Qed.

Lemma fetchFulfilled_fold (payload : list Contact) (m : gmap string Contact)
    (f : list string) :
  fold_left Redux.fetchFulfilledStep payload (m, f)
  = (fold_left (λ acc c, <[contact_id c := c]> acc) payload m,
     f ++ map contact_id (filter (λ c, isFavorite c = true) payload)).
Proof.
  revert m f. induction payload as [|c cs IH]; intros m f.
  - cbn. by rewrite app_nil_r.
  - cbn [fold_left]. unfold Redux.fetchFulfilledStep at 2. cbn [fst snd].
    destruct (isFavorite c) eqn:Hf.
    + rewrite IH, filter_cons_True by done. unfold push. cbn.
      by rewrite <- app_assoc.
    + rewrite IH, filter_cons_False by congruence. done.
Qed.

(** X24.  The reducer of a fulfilled fetch replaces the contact map by
    the fetched contacts but appends their favorite ids to the favorites
    list it finds, without clearing it: favorite ids of contacts no
    longer fetched stay listed, and fetching the same list twice lists
    each of its favorites twice. *)
Theorem redux_fetch_appends_favorites {H} (payload : list Contact) (now now' : Z)
    (s : Redux.ContactsState H) (c : Contact)
    (Hc : c ∈ payload) (Hfav : isFavorite c = true) :
  Redux.r_contacts (Redux.fetchFulfilled payload now s) = lastWins payload ∧
  Redux.r_favorites (Redux.fetchFulfilled payload now s)
    = Redux.r_favorites s
      ++ map contact_id (filter (λ c, isFavorite c = true) payload) ∧
  (∀ i, i ∈ Redux.r_favorites s →
        i ∈ Redux.r_favorites (Redux.fetchFulfilled payload now s)) ∧
  ¬ NoDup (Redux.r_favorites
             (Redux.fetchFulfilled payload now'
                (Redux.fetchFulfilled payload now s))).
Proof.
  assert (∀ t (st : Redux.ContactsState H),
    Redux.r_favorites (Redux.fetchFulfilled payload t st)
    = Redux.r_favorites st
      ++ map contact_id (filter (λ c, isFavorite c = true) payload)) as Hfavs.
  { intros t st. unfold Redux.fetchFulfilled. by rewrite fetchFulfilled_fold. }
  split_and!.
  - unfold Redux.fetchFulfilled. by rewrite fetchFulfilled_fold.
  - apply Hfavs.
  - intros i Hi. rewrite Hfavs. apply elem_of_app. by left.
  - rewrite !Hfavs. intros Hnd. apply NoDup_app in Hnd as (_ & Hdisj & _).
    assert (contact_id c
            ∈ map contact_id (filter (λ c, isFavorite c = true) payload)) as Hin.
    { apply list_elem_of_fmap. exists c. split; [done|].
      by apply list_elem_of_filter. }
    apply (Hdisj (contact_id c)); [|done]. apply elem_of_app. by right.
Qed.

Lemma redux_fetch_appends_favorites_witness :
  janeSmith ∈ [johnDoe; janeSmith] ∧ isFavorite janeSmith = true ∧
  Redux.r_favorites
    (Redux.fetchFulfilled [johnDoe; janeSmith] 2
       (Redux.fetchFulfilled [johnDoe; janeSmith] 1
          (@Redux.initialContactsState unit)))
  = ["2"; "2"].
Proof.
  assert (janeSmith ∈ [johnDoe; janeSmith]) as Hin
    by (apply list_elem_of_further, list_elem_of_here).
  split; [exact Hin|]. split; [reflexivity|].
  destruct (redux_fetch_appends_favorites [johnDoe; janeSmith] 2 2
              (Redux.fetchFulfilled [johnDoe; janeSmith] 1
                 (@Redux.initialContactsState unit))
              janeSmith Hin eq_refl) as (_ & Hf & _).
  rewrite Hf. reflexivity.
Defined.

(** X25.  The reducer of a fulfilled update stores the contact under its
    id and reconciles the favorites list in both directions: in a store
    whose list agrees with the flags it keeps them in agreement, whether
    the contact is new, overwritten, a favorite or not.  The reducer of a
    fulfilled create does so when the id is not listed yet. *)
Theorem redux_upserts_keep_favorites {H} (c : Contact)
    (s : Redux.ContactsState H)
    (Hs : favoritesConsistent (Redux.core s)) :
  favoritesConsistent (Redux.core (Redux.updateFulfilled c s)) ∧
  Redux.r_contacts (Redux.updateFulfilled c s) !! contact_id c = Some c ∧
  (contact_id c ∉ Redux.r_favorites s →
   favoritesConsistent (Redux.core (Redux.createFulfilled c s))).
Proof.
  pose proof (proj1 Hs) as Hnd. cbn [Redux.core favorites] in Hnd.
  assert (∀ favs',
    NoDup favs' →
    (∀ i, i ≠ contact_id c → i ∈ favs' ↔ i ∈ Redux.r_favorites s) →
    (contact_id c ∈ favs' ↔ isFavorite c = true) →
    favoritesConsistent
      (mkState (<[contact_id c:=c]> (Redux.r_contacts s)) (Redux.r_groups s)
               favs' (Redux.r_loading s) (Redux.r_error s))) as Hgen.
  { intros favs' H1 H2 H3.
    exact (consistent_after_insert (Redux.core s) (contact_id c) c favs'
             Hs H1 H2 H3). }
  split_and!.
  - unfold Redux.updateFulfilled. cbv zeta.
    cbn [Redux.r_favorites Redux.withContacts].
    destruct (isFavorite c) eqn:Hf,
             (includes (contact_id c) (Redux.r_favorites s)) eqn:Hin;
      cbn [andb negb].
    + apply includes_true in Hin.
      apply (Hgen (Redux.r_favorites s)); first [done | intuition congruence].
    + apply includes_false in Hin.
      apply (Hgen (push (contact_id c) (Redux.r_favorites s))).
      * by apply NoDup_push.
      * intros i Hi. rewrite elem_of_push. tauto.
      * rewrite elem_of_push. intuition congruence.
    + apply (Hgen (without (contact_id c) (Redux.r_favorites s))).
      * by apply NoDup_without.
      * intros i Hi. rewrite elem_of_without. tauto.
      * rewrite elem_of_without. intuition congruence.
    + apply (Hgen (without (contact_id c) (Redux.r_favorites s))).
      * by apply NoDup_without.
      * intros i Hi. rewrite elem_of_without. tauto.
      * rewrite elem_of_without. intuition congruence.
  - unfold Redux.updateFulfilled. cbv zeta.
    cbn [Redux.r_favorites Redux.withContacts].
    destruct (andb _ _); [cbn; apply lookup_insert_eq|].
    destruct (negb _); cbn; apply lookup_insert_eq.
  - intros Hnew. unfold Redux.createFulfilled. cbv zeta.
    cbn [Redux.r_favorites Redux.withContacts].
    destruct (isFavorite c) eqn:Hf.
    + apply (Hgen (push (contact_id c) (Redux.r_favorites s))).
      * by apply NoDup_push.
      * intros i Hi. rewrite elem_of_push. tauto.
      * rewrite elem_of_push. intuition congruence.
    + apply (Hgen (Redux.r_favorites s));
        first [done | intuition congruence].
Qed.

Lemma redux_upserts_keep_favorites_witness :
  favoritesConsistent (Redux.core (@Redux.initialContactsState unit)) ∧
  favoritesConsistent
    (Redux.core (Redux.updateFulfilled janeSmith
                   (@Redux.initialContactsState unit))).
Proof.
  assert (favoritesConsistent (Redux.core (@Redux.initialContactsState unit)))
    as Hs by exact initialState_consistent.
  split; [exact Hs|].
  exact (proj1 (redux_upserts_keep_favorites janeSmith _ Hs)).
Defined.

Lemma withGroups_withGroups (gs hs : list string) (c : Contact) :
  withGroups gs (withGroups hs c) = withGroups gs c.
Proof. reflexivity. Qed.

(** X26.  [addToGroup] and [removeFromGroup] do nothing for a contact id
    the map does not hold.  For a stored contact, [addToGroup] makes it a
    member without listing the group twice, so adding again changes
    nothing; [removeFromGroup] leaves no occurrence of the group, and it
    undoes an [addToGroup] of a group the contact was not in.  Neither
    touches the favorites list. *)
Theorem group_membership_edits {H} (s : Redux.ContactsState H)
    (contactId g : string) :
  (Redux.r_contacts s !! contactId = None →
     Redux.addToGroup contactId g s = s ∧
     Redux.removeFromGroup contactId g s = s) ∧
  (∀ c, Redux.r_contacts s !! contactId = Some c →
     (∃ c', Redux.r_contacts (Redux.addToGroup contactId g s) !! contactId
              = Some c' ∧
            g ∈ contact_groups c' ∧ sameExceptGroups c c' ∧
            (NoDup (contact_groups c) → NoDup (contact_groups c'))) ∧
     (∃ c', Redux.r_contacts (Redux.removeFromGroup contactId g s) !! contactId
              = Some c' ∧
            (g ∉ contact_groups c') ∧ sameExceptGroups c c') ∧
     Redux.addToGroup contactId g (Redux.addToGroup contactId g s)
       = Redux.addToGroup contactId g s ∧
     (g ∉ contact_groups c →
      Redux.removeFromGroup contactId g (Redux.addToGroup contactId g s) = s)) ∧
  Redux.r_favorites (Redux.addToGroup contactId g s) = Redux.r_favorites s ∧
  Redux.r_favorites (Redux.removeFromGroup contactId g s) = Redux.r_favorites s.
Proof.
  split_and!.
  - intros Hnone. unfold Redux.addToGroup, Redux.removeFromGroup.
    by rewrite Hnone.
  - intros c Hc.
    assert (Redux.addToGroup contactId g s =
            if includes g (contact_groups c) then s
            else Redux.withContacts
                   (<[contactId:=withGroups (push g (contact_groups c)) c]>
                      (Redux.r_contacts s)) s) as Hadd.
    { unfold Redux.addToGroup. rewrite Hc.
      by destruct (includes g (contact_groups c)). }
    destruct (includes g (contact_groups c)) eqn:Hin.
    + apply includes_true in Hin. rewrite Hadd. split_and!.
      * exists c. split_and!; [done|done|by repeat split|done].
      * exists (withGroups (without g (contact_groups c)) c). split_and!.
        -- unfold Redux.removeFromGroup. rewrite Hc. cbn.
           apply lookup_insert_eq.
        -- cbn. rewrite elem_of_without. tauto.
        -- apply withGroups_same.
      * unfold Redux.addToGroup. rewrite Hc.
        by rewrite (proj2 (includes_true _ _) Hin).
      * intros Hout. by destruct Hout.
    + apply includes_false in Hin. rewrite Hadd. split_and!.
      * exists (withGroups (push g (contact_groups c)) c). split_and!.
        -- cbn. apply lookup_insert_eq.
        -- cbn. apply elem_of_push. tauto.
        -- apply withGroups_same.
        -- intros Hnd. cbn. by apply NoDup_push.
      * exists (withGroups (without g (contact_groups c)) c). split_and!.
        -- unfold Redux.removeFromGroup. rewrite Hc. cbn.
           apply lookup_insert_eq.
        -- cbn. rewrite elem_of_without. tauto.
        -- apply withGroups_same.
      * unfold Redux.addToGroup at 1.
        cbn [Redux.r_contacts Redux.withContacts].
        rewrite lookup_insert_eq. cbn [contact_groups withGroups].
        assert (includes g (push g (contact_groups c)) = true) as ->
          by (apply includes_true, elem_of_push; tauto).
        done.
      * intros _. unfold Redux.removeFromGroup.
        cbn [Redux.r_contacts Redux.withContacts].
        rewrite lookup_insert_eq. cbn [contact_groups].
        rewrite withGroups_withGroups.
        change (contact_groups (withGroups (push g (contact_groups c)) c))
          with (push g (contact_groups c)).
        rewrite without_push_absent by done.
        rewrite withGroups_same_list.
        unfold Redux.withContacts.
        cbn [Redux.r_contacts Redux.r_groups Redux.r_callHistory
             Redux.r_favorites Redux.r_loading Redux.r_error Redux.r_lastSync].
        rewrite insert_insert_eq, insert_id by done. by destruct s.
  - unfold Redux.addToGroup. destruct (Redux.r_contacts s !! contactId); [|done].
    by destruct (negb _).
  - unfold Redux.removeFromGroup.
    by destruct (Redux.r_contacts s !! contactId).
Qed.

(** ** Selectors of the Redux store *)

(** X27.  The search slice keeps the ids of the contacts a search
    returned and [selectSearchResults] looks them up again: when every
    returned contact is stored under its own id the selector gives back
    exactly what the search returned, in order; and once a contact has
    been deleted the selector silently leaves it out. *)
Theorem search_results_resolve {H} (s : Redux.ContactsState H)
    (payload : list Contact)
    (Hstored : ∀ c, c ∈ payload → Redux.r_contacts s !! contact_id c = Some c) :
  Redux.selectSearchResults (Redux.searchFulfilled payload) s = payload ∧
  (∀ id, Redux.selectSearchResults (Redux.searchFulfilled payload)
           (Redux.deleteFulfilled id s)
         = filter (λ c, contact_id c ≠ id) payload).
Proof.
  unfold Redux.selectSearchResults, Redux.searchFulfilled. split.
  - induction payload as [|c cs IH]; [done|]. cbn.
    rewrite (Hstored c) by apply list_elem_of_here. cbn. f_equal.
    apply IH. intros d Hd. apply Hstored. by apply list_elem_of_further.
  - intros id. unfold Redux.deleteFulfilled.
    cbn [Redux.r_contacts Redux.withContacts Redux.withFavorites].
    induction payload as [|c cs IH]; [done|]. cbn [map omap list_omap].
    assert (omap (λ k, delete id (Redux.r_contacts s) !! k) (map contact_id cs)
            = filter (λ d, contact_id d ≠ id) cs) as Htail.
    { apply IH. intros d Hd. apply Hstored. by apply list_elem_of_further. }
    destruct (decide (contact_id c = id)) as [Heq|Hne].
    + rewrite filter_cons_False by tauto. rewrite Heq, lookup_delete_eq.
      exact Htail.
    + rewrite filter_cons_True by done.
      rewrite lookup_delete_ne by done.
      rewrite (Hstored c) by apply list_elem_of_here. cbn. by f_equal.
Qed.

Lemma search_results_resolve_witness :
  (∀ c, c ∈ [janeSmith; johnDoe] →
        Redux.r_contacts
          (Redux.fetchFulfilled [johnDoe; janeSmith] 1
             (@Redux.initialContactsState unit)) !! contact_id c = Some c) ∧
  Redux.selectSearchResults (Redux.searchFulfilled [janeSmith; johnDoe])
    (Redux.deleteFulfilled "1"
       (Redux.fetchFulfilled [johnDoe; janeSmith] 1
          (@Redux.initialContactsState unit)))
  = [janeSmith].
Proof.
  assert (∀ c, c ∈ [janeSmith; johnDoe] →
        Redux.r_contacts
          (Redux.fetchFulfilled [johnDoe; janeSmith] 1
             (@Redux.initialContactsState unit)) !! contact_id c = Some c)
    as Hst.
  { intros c Hc. repeat (apply elem_of_cons in Hc as [->|Hc]);
      [reflexivity|reflexivity|by apply elem_of_nil in Hc]. }
  split; [exact Hst|].
  rewrite (proj2 (search_results_resolve _ _ Hst) "1"). reflexivity.
Defined.

(** X28.  [selectFavoriteContacts] filters the stored contacts by their
    own [id] field while the derived lists of the other stores look the
    listed ids up as keys; when every stored contact carries its key the
    two select the same contacts. *)
Theorem favorite_selectors_agree {H} (s : Redux.ContactsState H)
    (Hids : idsMatchKeys (Redux.core s)) :
  (∀ c, c ∈ Redux.selectFavoriteContacts s ↔
        ∃ k, Redux.r_contacts s !! k = Some c ∧
             contact_id c ∈ Redux.r_favorites s) ∧
  (∀ c, c ∈ Redux.selectFavoriteContacts s ↔
        c ∈ favoriteContacts (Redux.core s)).
Proof.
  assert (∀ c, c ∈ Redux.selectFavoriteContacts s ↔
               ∃ k, Redux.r_contacts s !! k = Some c ∧
                    contact_id c ∈ Redux.r_favorites s) as Hmem.
  { intros c. unfold Redux.selectFavoriteContacts, Redux.selectAllContacts.
    rewrite list_elem_of_filter, includes_true, elem_of_objectValues.
    split; [intros [Hf (k & Hk)]|intros (k & Hk & Hf)]; eauto. }
  split; [done|]. intros c. rewrite Hmem.
  unfold favoriteContacts. rewrite list_elem_of_omap. cbn. split.
  - intros (k & Hk & Hf). exists k. split; [|done].
    by rewrite <- (Hids k c Hk).
  - intros (k & Hf & Hk). exists k. split; [done|].
    by rewrite (Hids k c Hk).
Qed.

Lemma favorite_selectors_agree_witness :
  idsMatchKeys (Redux.core (Redux.updateFulfilled janeSmith
                              (@Redux.initialContactsState unit))) ∧
  (janeSmith ∈ Redux.selectFavoriteContacts
                 (Redux.updateFulfilled janeSmith
                    (@Redux.initialContactsState unit)) ↔
   janeSmith ∈ favoriteContacts
                 (Redux.core (Redux.updateFulfilled janeSmith
                                (@Redux.initialContactsState unit)))).
Proof.
  assert (idsMatchKeys (Redux.core (Redux.updateFulfilled janeSmith
                                      (@Redux.initialContactsState unit))))
    as Hids.
  { intros k c Hk.
    change (contacts (Redux.core (Redux.updateFulfilled janeSmith
                                    (@Redux.initialContactsState unit))))
      with (<["2":=janeSmith]> (∅ : gmap string Contact)) in Hk.
    apply lookup_insert_Some in Hk as [[<- <-]|[_ Hk]]; [reflexivity|].
    rewrite lookup_empty in Hk. discriminate Hk. }
  split; [exact Hids|].
  exact (proj2 (favorite_selectors_agree _ Hids) janeSmith).
Defined.
